(** * Balote replay viewer: [frontend/js]

    A shallow embedding of the reducer of [state.js] ([buildInitialState],
    [applyAction], [computeStateAt]), of the playback controls of
    [controls.js], of the drawing functions and the timeline of
    [renderer.js] and of [update] of [main.js], with the properties of the
    snapshot transition function that the design notes rely on and those
    of the page built on it. *)

From stdpp Require Import gmap strings list fin_maps pretty.
From Stdlib Require Import ZArith Lia ZifyNat QArith.

Local Open Scope Z_scope.
Local Open Scope string_scope.
Local Open Scope list_scope.

(** ** Data model *)

(** A card is the string found in the recorded game, rank characters
    followed by one suit character ("TS", "7H", ...). *)
Definition Card : Type := string.

(** The only failure the reducer can raise: reading a property of
    [undefined] (a missing payload, a missing hand, a missing log entry). *)
Inductive Error : Type := TypeError.

Definition Result (A : Type) : Type := (Error + A)%type.

Definition bindR {A B : Type} (r : Result A) (k : A -> Result B) : Result B :=
  match r with
  | inl e => inl e
  | inr a => k a
  end.

(** A field that is [None] is absent ([undefined]) or [null]. *)
Module Payload.
Record t : Type := mk {
  card : option Card;
  mode : option string;
  trump_suit : option string;
  floor_taker : option Z
}.
End Payload.

Module Action.
Record t : Type := mk {
  type : string;
  player : option Z;
  payload : option Payload.t
}.
End Action.

(** One element of [trick]: the object [{ player: p, card }]. *)
Module Entry.
Record t : Type := mk {
  player : Z;
  card : option Card
}.
End Entry.

(** The snapshot. [hands] and [tricksWon] are objects keyed by the player
    index. *)
Record State : Type := mkState {
  phase : string;
  dealer : option Z;
  currentPlayer : option Z;
  floorCard : option Card;
  hands : gmap Z (list Card);
  trick : list Entry.t;
  trickComplete : bool;
  tricksWon : gmap Z Z;
  mode : option string;
  trump : option string
}.

(** The recorded round, as [loadRound] hands it over. *)
Module Json.
Record Meta : Type := mkMeta { dealer : option Z }.
Record Bidding : Type := mkBidding {
  hands_5 : gmap Z (list Card);
  current_player : option Z;
  floor_card : option Card
}.
Record Initial : Type := mkInitial {
  start_phase : string;
  meta : Meta;
  bidding : Bidding
}.
Record t : Type := mk {
  initial : Initial;
  actions : list Action.t
}.
End Json.

(** ** Field updates on the cloned snapshot [s] *)

Definition set_phase (v : string) (s : State) : State :=
  mkState v (dealer s) (currentPlayer s) (floorCard s) (hands s) (trick s)
          (trickComplete s) (tricksWon s) (mode s) (trump s).

Definition set_currentPlayer (v : option Z) (s : State) : State :=
  mkState (phase s) (dealer s) v (floorCard s) (hands s) (trick s)
          (trickComplete s) (tricksWon s) (mode s) (trump s).

Definition set_hands (v : gmap Z (list Card)) (s : State) : State :=
  mkState (phase s) (dealer s) (currentPlayer s) (floorCard s) v (trick s)
          (trickComplete s) (tricksWon s) (mode s) (trump s).

Definition set_trick (v : list Entry.t) (s : State) : State :=
  mkState (phase s) (dealer s) (currentPlayer s) (floorCard s) (hands s) v
          (trickComplete s) (tricksWon s) (mode s) (trump s).

Definition set_trickComplete (v : bool) (s : State) : State :=
  mkState (phase s) (dealer s) (currentPlayer s) (floorCard s) (hands s) (trick s)
          v (tricksWon s) (mode s) (trump s).

Definition set_mode (v : option string) (s : State) : State :=
  mkState (phase s) (dealer s) (currentPlayer s) (floorCard s) (hands s) (trick s)
          (trickComplete s) (tricksWon s) v (trump s).

Definition set_trump (v : option string) (s : State) : State :=
  mkState (phase s) (dealer s) (currentPlayer s) (floorCard s) (hands s) (trick s)
          (trickComplete s) (tricksWon s) (mode s) v.

(** ** [buildInitialState] *)

Definition buildInitialState (json : Json.t) : State :=
  let b := Json.bidding (Json.initial json) in
  {| phase := Json.start_phase (Json.initial json);
     dealer := Json.dealer (Json.meta (Json.initial json));
     currentPlayer := Json.current_player b;
     floorCard := Json.floor_card b;
     hands := (fun h : list Card => h) <$> Json.hands_5 b;
     trick := [];
     trickComplete := false;
     tricksWon := <[0 := 0]> (<[1 := 0]> (<[2 := 0]> (<[3 := 0]> ∅)));
     mode := None;
     trump := None |}.

(** ** [applyAction] *)

(** [if (s.trickComplete) { s.trick = []; s.trickComplete = false; }] *)
Definition clearTrick (s : State) : State :=
  if trickComplete s then set_trickComplete false (set_trick [] s) else s.

(** The [FINALIZE_CONTRACT] branch. *)
Definition finalizeContract (a : Action.t) (s : State) : Result State :=
  if decide (Action.type a = "FINALIZE_CONTRACT") then
    match Action.payload a with
    | None => inl TypeError
    | Some pl =>
        inr (set_currentPlayer (Payload.floor_taker pl)
              (set_trump (Payload.trump_suit pl)
                (set_mode (Payload.mode pl)
                  (set_phase "PLAYING" s))))
    end
  else inr s.

(** [s.hands[p].filter(c => c !== card)] *)
Definition withoutCard (card : option Card) (h : list Card) : list Card :=
  filter (fun c : Card => Some c ≠ card) h.

(** The body of the [PLAY_CARD] branch, once the hand [h] of player [p] has
    been read. *)
Definition playInto (p : Z) (card : option Card) (h : list Card) (s : State) : State :=
  let s1 := set_hands (<[p := withoutCard card h]> (hands s)) s in
  let s2 := set_trick (trick s1 ++ [Entry.mk p card]) s1 in
  if decide (length (trick s2) = 4%nat) then
    let winner := p in
    set_trickComplete true (set_currentPlayer (Some winner) s2)
  else
    set_currentPlayer (Some (Z.rem (p + 1) 4)) s2.

(** The [PLAY_CARD] branch. *)
Definition playCard (a : Action.t) (s : State) : Result State :=
  if decide (Action.type a = "PLAY_CARD") then
    match Action.payload a with
    | None => inl TypeError
    | Some pl =>
        let card := Payload.card pl in
        match Action.player a with
        | None => inl TypeError
        | Some p =>
            match hands s !! p with
            | None => inl TypeError
            | Some h => inr (playInto p card h s)
            end
        end
    end
  else inr s.

Definition applyAction (state : State) (action : Action.t) : Result State :=
  let s := clearTrick state in
  bindR (finalizeContract action s) (playCard action).

(** The snapshot a [PLAY_CARD] by [p] returns when [h] is the hand of [p]. *)
Definition played (s : State) (p : Z) (card : option Card) (h : list Card) : State :=
  playInto p card h (clearTrick s).

(** ** [computeStateAt] *)

(** The body of the [for] loop, from index [i], for [n] more rounds.
    Past the end of the log [json.actions[i]] is [undefined] and reading
    its [type] throws. *)
Fixpoint replayFrom (acts : list Action.t) (i n : nat) (state : State) : Result State :=
  match n with
  | O => inr state
  | S n' =>
      match acts !! i with
      | None => inl TypeError
      | Some a => bindR (applyAction state a) (replayFrom acts (S i) n')
      end
  end.

Definition computeStateAt (json : Json.t) (step : nat) : Result State :=
  replayFrom (Json.actions json) 0 step (buildInitialState json).

(** [applyAction] over a list of actions, from the first to the last. *)
Fixpoint applyAll (s : State) (acts : list Action.t) : Result State :=
  match acts with
  | [] => inr s
  | a :: rest => bindR (applyAction s a) (fun s' => applyAll s' rest)
  end.

(** ** The reducer on the JavaScript heap

    The snapshot, its [hands] object, every hand, the [trick] array and the
    [tricksWon] object are separate heap objects, reached through
    references; so are the hands of the recorded round. Cards, numbers,
    strings, actions and trick entries are never written to and are kept
    as values. A hand is never written in place either ([filter] returns
    a new array), so a clone copies every hand on its own. A location is
    an index in the heap, allocation appends. An exception leaves the heap
    as it is at the point where it is thrown. *)

Module Heap.

Abbreviation loc := nat (only parsing).

Module Obj.
Record t : Type := mk {
  phase : string;
  dealer : option Z;
  currentPlayer : option Z;
  floorCard : option Card;
  hands : loc;
  trick : loc;
  trickComplete : bool;
  tricksWon : loc;
  mode : option string;
  trump : option string
}.
End Obj.

Inductive cell : Type :=
| Cards (cs : list Card)
| Entries (es : list Entry.t)
| Hands (refs : gmap Z loc)
| Counts (m : gmap Z Z)
| Snapshot (o : Obj.t).

Abbreviation heap := (list cell) (only parsing).

(** The recorded round; [hands_5] refers to an object of arrays. *)
Module Json.
Record t : Type := mk {
  start_phase : string;
  dealer : option Z;
  current_player : option Z;
  floor_card : option Card;
  hands_5 : loc;
  actions : list Action.t
}.
End Json.

Definition M (A : Type) : Type := heap -> Result A * heap.

Definition ret {A : Type} (a : A) : M A := fun h => (inr a, h).

Definition throw {A : Type} : M A := fun h => (inl TypeError, h).

Definition bind {A B : Type} (c : M A) (k : A -> M B) : M B :=
  fun h =>
    match c h with
    | (inl e, h') => (inl e, h')
    | (inr a, h') => k a h'
    end.

#[global] Instance M_ret : MRet M := @ret.
#[global] Instance M_bind : MBind M := fun A B k c => bind c k.

Definition alloc (c : cell) : M loc := fun h => (inr (length h), (h ++ [c])%list).

Definition load (l : loc) : M cell :=
  fun h => match h !! l with Some c => (inr c, h) | None => (inl TypeError, h) end.

Definition store (l : loc) (c : cell) : M unit := fun h => (inr tt, <[l := c]> h).

Definition loadCards (l : loc) : M (list Card) :=
  c ← load l; match c with Cards cs => ret cs | _ => throw end.

Definition loadEntries (l : loc) : M (list Entry.t) :=
  c ← load l; match c with Entries es => ret es | _ => throw end.

Definition loadHands (l : loc) : M (gmap Z loc) :=
  c ← load l; match c with Hands refs => ret refs | _ => throw end.

Definition loadCounts (l : loc) : M (gmap Z Z) :=
  c ← load l; match c with Counts m => ret m | _ => throw end.

Definition loadSnapshot (l : loc) : M Obj.t :=
  c ← load l; match c with Snapshot o => ret o | _ => throw end.

(** [for (const p in src) { hands[p] = [...src[p]]; }] *)
Fixpoint fillHands (src : list (Z * loc)) (hands : loc) : M unit :=
  match src with
  | [] => ret tt
  | (p, l) :: rest =>
      cs ← loadCards l;
      copy ← alloc (Cards cs);
      refs ← loadHands hands;
      store hands (Hands (<[p := copy]> refs)) ;;
      fillHands rest hands
  end.

(** A new object holding a copy of every array of the object at [src]. *)
Definition copyHands (src : loc) : M loc :=
  refs ← loadHands src;
  hands ← alloc (Hands ∅);
  fillHands (map_to_list refs) hands ;;
  ret hands.

Definition buildInitialState (json : Json.t) : M loc :=
  hands ← copyHands (Json.hands_5 json);
  trick ← alloc (Entries []);
  tricksWon ← alloc (Counts (<[0 := 0]> (<[1 := 0]> (<[2 := 0]> (<[3 := 0]> ∅)))));
  alloc (Snapshot
    {| Obj.phase := Json.start_phase json;
       Obj.dealer := Json.dealer json;
       Obj.currentPlayer := Json.current_player json;
       Obj.floorCard := Json.floor_card json;
       Obj.hands := hands;
       Obj.trick := trick;
       Obj.trickComplete := false;
       Obj.tricksWon := tricksWon;
       Obj.mode := None;
       Obj.trump := None |}).

(** [structuredClone(state)]: a deep copy, every object allocated anew. *)
Definition structuredClone (state : loc) : M loc :=
  o ← loadSnapshot state;
  hands ← copyHands (Obj.hands o);
  es ← loadEntries (Obj.trick o);
  trick ← alloc (Entries es);
  m ← loadCounts (Obj.tricksWon o);
  tricksWon ← alloc (Counts m);
  alloc (Snapshot
    {| Obj.phase := Obj.phase o;
       Obj.dealer := Obj.dealer o;
       Obj.currentPlayer := Obj.currentPlayer o;
       Obj.floorCard := Obj.floorCard o;
       Obj.hands := hands;
       Obj.trick := trick;
       Obj.trickComplete := Obj.trickComplete o;
       Obj.tricksWon := tricksWon;
       Obj.mode := Obj.mode o;
       Obj.trump := Obj.trump o |}).

Definition set_phase (v : string) (o : Obj.t) : Obj.t :=
  Obj.mk v (Obj.dealer o) (Obj.currentPlayer o) (Obj.floorCard o) (Obj.hands o)
         (Obj.trick o) (Obj.trickComplete o) (Obj.tricksWon o) (Obj.mode o) (Obj.trump o).

Definition set_currentPlayer (v : option Z) (o : Obj.t) : Obj.t :=
  Obj.mk (Obj.phase o) (Obj.dealer o) v (Obj.floorCard o) (Obj.hands o)
         (Obj.trick o) (Obj.trickComplete o) (Obj.tricksWon o) (Obj.mode o) (Obj.trump o).

Definition set_trick (v : loc) (o : Obj.t) : Obj.t :=
  Obj.mk (Obj.phase o) (Obj.dealer o) (Obj.currentPlayer o) (Obj.floorCard o) (Obj.hands o)
         v (Obj.trickComplete o) (Obj.tricksWon o) (Obj.mode o) (Obj.trump o).

Definition set_trickComplete (v : bool) (o : Obj.t) : Obj.t :=
  Obj.mk (Obj.phase o) (Obj.dealer o) (Obj.currentPlayer o) (Obj.floorCard o) (Obj.hands o)
         (Obj.trick o) v (Obj.tricksWon o) (Obj.mode o) (Obj.trump o).

Definition set_mode (v : option string) (o : Obj.t) : Obj.t :=
  Obj.mk (Obj.phase o) (Obj.dealer o) (Obj.currentPlayer o) (Obj.floorCard o) (Obj.hands o)
         (Obj.trick o) (Obj.trickComplete o) (Obj.tricksWon o) v (Obj.trump o).

Definition set_trump (v : option string) (o : Obj.t) : Obj.t :=
  Obj.mk (Obj.phase o) (Obj.dealer o) (Obj.currentPlayer o) (Obj.floorCard o) (Obj.hands o)
         (Obj.trick o) (Obj.trickComplete o) (Obj.tricksWon o) (Obj.mode o) v.

(** [s.f = v] *)
Definition update (s : loc) (f : Obj.t -> Obj.t) : M unit :=
  o ← loadSnapshot s; store s (Snapshot (f o)).

Definition clearTrick (s : loc) : M unit :=
  o ← loadSnapshot s;
  if Obj.trickComplete o then
    empty ← alloc (Entries []);
    update s (set_trick empty) ;;
    update s (set_trickComplete false)
  else ret tt.

Definition finalizeContract (a : Action.t) (s : loc) : M unit :=
  if decide (Action.type a = "FINALIZE_CONTRACT") then
    update s (set_phase "PLAYING") ;;
    match Action.payload a with
    | None => throw
    | Some pl =>
        update s (set_mode (Payload.mode pl)) ;;
        update s (set_trump (Payload.trump_suit pl)) ;;
        update s (set_currentPlayer (Payload.floor_taker pl))
    end
  else ret tt.

Definition playCard (a : Action.t) (s : loc) : M unit :=
  if decide (Action.type a = "PLAY_CARD") then
    match Action.payload a with
    | None => throw
    | Some pl =>
        let card := Payload.card pl in
        match Action.player a with
        | None => throw
        | Some p =>
            o ← loadSnapshot s;
            refs ← loadHands (Obj.hands o);
            match refs !! p with
            | None => throw
            | Some hand =>
                cs ← loadCards hand;
                kept ← alloc (Cards (withoutCard card cs));
                store (Obj.hands o) (Hands (<[p := kept]> refs)) ;;
                es ← loadEntries (Obj.trick o);
                store (Obj.trick o) (Entries (es ++ [Entry.mk p card])) ;;
                es' ← loadEntries (Obj.trick o);
                if decide (length es' = 4%nat) then
                  let winner := p in
                  update s (set_currentPlayer (Some winner)) ;;
                  update s (set_trickComplete true)
                else
                  update s (set_currentPlayer (Some (Z.rem (p + 1) 4)))
            end
        end
    end
  else ret tt.

Definition applyAction (state : loc) (action : Action.t) : M loc :=
  s ← structuredClone state;
  clearTrick s ;;
  finalizeContract action s ;;
  playCard action s ;;
  ret s.

Fixpoint replayFrom (acts : list Action.t) (i n : nat) (state : loc) : M loc :=
  match n with
  | O => ret state
  | S n' =>
      match acts !! i with
      | None => throw
      | Some a => state' ← applyAction state a; replayFrom acts (S i) n' state'
      end
  end.

Definition computeStateAt (json : Json.t) (step : nat) : M loc :=
  state ← buildInitialState json;
  replayFrom (Json.actions json) 0 step state.

End Heap.

(** *** What a heap holds *)

(** The object [refs] holds the hands [m]. *)
Definition holdsHands (h : Heap.heap) (refs : gmap Z Heap.loc)
    (m : gmap Z (list Card)) : Prop :=
  (fun l : Heap.loc => h !! l) <$> refs = (fun cs => Some (Heap.Cards cs)) <$> m.

(** Every array of [h] is still there, unchanged, in [h']. *)
Definition keepsCards (h h' : Heap.heap) : Prop :=
  forall (l : Heap.loc) (cs : list Card),
    h !! l = Some (Heap.Cards cs) -> h' !! l = Some (Heap.Cards cs).

(** The fields of the object [o] that are values are those of [s]. *)
Definition sameFields (o : Heap.Obj.t) (s : State) : Prop :=
  Heap.Obj.phase o = phase s /\ Heap.Obj.dealer o = dealer s /\
  Heap.Obj.currentPlayer o = currentPlayer s /\
  Heap.Obj.floorCard o = floorCard s /\
  Heap.Obj.trickComplete o = trickComplete s /\
  Heap.Obj.mode o = mode s /\ Heap.Obj.trump o = trump s.

(** The object at [l] is the snapshot [s]; the snapshot object, its hands
    object and its trick array lie at or above location [n]. *)
Definition owns (n : nat) (h : Heap.heap) (l : Heap.loc) (s : State) : Prop :=
  exists (o : Heap.Obj.t) (refs : gmap Z Heap.loc),
    h !! l = Some (Heap.Snapshot o) /\
    h !! Heap.Obj.hands o = Some (Heap.Hands refs) /\
    h !! Heap.Obj.trick o = Some (Heap.Entries (trick s)) /\
    h !! Heap.Obj.tricksWon o = Some (Heap.Counts (tricksWon s)) /\
    holdsHands h refs (hands s) /\
    sameFields o s /\
    (n <= l)%nat /\ (n <= Heap.Obj.hands o)%nat /\ (n <= Heap.Obj.trick o)%nat.

Definition holds (h : Heap.heap) (l : Heap.loc) (s : State) : Prop := owns 0 h l s.

(** The round [j] on the heap is the round [json]. *)
Definition holdsJson (h : Heap.heap) (j : Heap.Json.t) (json : Json.t) : Prop :=
  Heap.Json.start_phase j = Json.start_phase (Json.initial json) /\
  Heap.Json.dealer j = Json.dealer (Json.meta (Json.initial json)) /\
  Heap.Json.current_player j = Json.current_player (Json.bidding (Json.initial json)) /\
  Heap.Json.floor_card j = Json.floor_card (Json.bidding (Json.initial json)) /\
  Heap.Json.actions j = Json.actions json /\
  exists refs : gmap Z Heap.loc,
    h !! Heap.Json.hands_5 j = Some (Heap.Hands refs) /\
    holdsHands h refs (Json.hands_5 (Json.bidding (Json.initial json))).

(** The outcome [r] of a run that ended in heap [h] is the outcome [r']
    of the reducer on values: the same exception, or a reference to the
    same snapshot. *)
Definition sameOutcome (h : Heap.heap) (r : Result Heap.loc) (r' : Result State) : Prop :=
  match r, r' with
  | inr l, inr s => holds h l s
  | inl e, inl e' => e = e'
  | _, _ => False
  end.

(** ** Snapshots reachable from the initial one *)

Inductive reachable (json : Json.t) : State -> Prop :=
| reach_init : reachable json (buildInitialState json)
| reach_step s a s' :
    reachable json s -> applyAction s a = inr s' -> reachable json s'.

(** What holds of the trick in every reachable snapshot. *)
Definition trick_ok (s : State) : Prop :=
  (length (trick s) <= 4)%nat /\
  (trickComplete s = true <-> length (trick s) = 4%nat).

(** ** Where the cards are *)



(** The cards lying in a trick. *)
Definition trickCards (t : list Entry.t) : list Card := omap Entry.card t.






(** ** Trick resolution, as the specification describes it *)

(** [card.slice(-1)]: the suit letter of a card. *)
Fixpoint suitOf (c : Card) : string :=
  match c with
  | EmptyString => EmptyString
  | String x EmptyString => String x EmptyString
  | String _ rest => suitOf rest
  end.

(** Modelled from the spec: the entries of a trick whose card has suit
    [suit] (the trump cards, the cards of the led suit), for [resolveTrick]. *)
Definition ofSuit (suit : string) (t : list Entry.t) : list Entry.t :=
  filter (fun e : Entry.t => suitOf <$> Entry.card e = Some suit) t.

(** Modelled from the spec: the highest-ranked entry among [best] and [t]
    under the rank order [strength], the earlier one on equal strength, for
    [resolveTrick]. *)
Fixpoint strongest (strength : Card -> nat) (best : Entry.t) (t : list Entry.t) : Entry.t :=
  match t with
  | [] => best
  | e :: rest =>
      let better :=
        match Entry.card best, Entry.card e with
        | Some b, Some c => (strength b <? strength c)%nat
        | None, Some _ => true
        | _, None => false
        end in
      strongest strength (if better then e else best) rest
  end.

(** Modelled from the spec: [resolveTrick], which belongs to the rules
    engine and is not part of the reducer. The winner is the player of the
    highest-ranked trump card if a trump was played, otherwise of the
    highest-ranked card of the suit that was led. The rank order depends on
    the contract and is left open, so it is the parameter [strength]. *)
Definition resolveTrick (strength : Card -> nat) (t : list Entry.t)
    (trump : option string) : option Z :=
  let trumps := match trump with Some u => ofSuit u t | None => [] end in
  let led :=
    match t with
    | e :: _ => match Entry.card e with Some c => ofSuit (suitOf c) t | None => [] end
    | [] => []
    end in
  match (if bool_decide (trumps = []) then led else trumps) with
  | [] => None
  | e :: rest => Some (Entry.player (strongest strength e rest))
  end.

(** ** A recorded round *)

Module Sample.

Definition pass (p : Z) : Action.t := Action.mk "PASS" (Some p) None.

Definition bid (kind : string) (p : Z) : Action.t := Action.mk kind (Some p) None.

Definition finalize (m : string) (t : option string) (taker : Z) : Action.t :=
  Action.mk "FINALIZE_CONTRACT" None
    (Some (Payload.mk None (Some m) t (Some taker))).

Definition play (p : Z) (c : Card) : Action.t :=
  Action.mk "PLAY_CARD" (Some p) (Some (Payload.mk (Some c) None None None)).

Definition deal : gmap Z (list Card) :=
  <[0 := ["AS"; "9H"; "TD"; "7C"; "KC"]]>
  (<[1 := ["KS"; "7D"; "8H"; "9C"; "JD"]]>
  (<[2 := ["QS"; "8C"; "AH"; "QD"; "7S"]]>
  (<[3 := ["7H"; "JC"; "KD"; "9D"; "TH"]]> ∅))).

(** Sun contract; player 0 leads the ace of spades, players 1 and 2
    follow suit, player 3 has no spade and throws the seven of hearts;
    player 0 then leads the second trick. *)
Definition round : Json.t :=
  Json.mk
    (Json.mkInitial "BIDDING" (Json.mkMeta (Some 3))
       (Json.mkBidding deal (Some 0) (Some "AC")))
    [ pass 0; bid "BID_SUN" 1; finalize "SUN" None 1;
      play 0 "AS"; play 1 "KS"; play 2 "QS"; play 3 "7H";
      play 0 "9H" ].

(** The snapshot after [k] actions of the round. *)
Definition at_step (k : nat) : State :=
  match computeStateAt round k with
  | inr s => s
  | inl _ => buildInitialState round
  end.

(** A snapshot in which a single card is left to play. *)
Definition lastCard : State :=
  {| phase := "PLAYING"; dealer := Some 3; currentPlayer := Some 0;
     floorCard := Some "AC";
     hands := <[0 := ["KC"]]> (<[1 := []]> (<[2 := []]> (<[3 := []]> ∅)));
     trick := []; trickComplete := false;
     tricksWon := <[0 := 0]> (<[1 := 0]> (<[2 := 0]> (<[3 := 0]> ∅)));
     mode := Some "SUN"; trump := None |}.

(** The round as [loadRound] leaves it on the heap: the four hands at
    locations 0 to 3, the object [hands_5] at location 4. *)
Definition heap0 : Heap.heap :=
  [ Heap.Cards ["AS"; "9H"; "TD"; "7C"; "KC"];
    Heap.Cards ["KS"; "7D"; "8H"; "9C"; "JD"];
    Heap.Cards ["QS"; "8C"; "AH"; "QD"; "7S"];
    Heap.Cards ["7H"; "JC"; "KD"; "9D"; "TH"];
    Heap.Hands (<[0 := 0%nat]> (<[1 := 1%nat]> (<[2 := 2%nat]> (<[3 := 3%nat]> ∅)))) ].

Definition round_ref : Heap.Json.t :=
  Heap.Json.mk "BIDDING" (Some 3) (Some 0) (Some "AC") 4%nat (Json.actions round).

(** The reference returned by a run, location 0 after an exception. *)
Definition ref_of (run : Result Heap.loc * Heap.heap) : Heap.loc :=
  match fst run with inr l => l | inl _ => 0%nat end.

(** The snapshot object a run returned and the contents of its hands
    object. *)
Definition obj_of (run : Result Heap.loc * Heap.heap) : Heap.Obj.t :=
  match snd run !! ref_of run with
  | Some (Heap.Snapshot o) => o
  | _ => Heap.Obj.mk "" None None None 0%nat 0%nat false 0%nat None None
  end.

Definition refs_of (run : Result Heap.loc * Heap.heap) : gmap Z Heap.loc :=
  match snd run !! Heap.Obj.hands (obj_of run) with
  | Some (Heap.Hands refs) => refs
  | _ => ∅
  end.



(** The heap after the replay of the first four actions: player 0 has led
    the ace of spades. *)
Definition led : Result Heap.loc * Heap.heap :=
  Heap.computeStateAt round_ref 4 heap0.

End Sample.

(** ** The playback controls: [frontend/js/controls.js]

    [setupControls] keeps four variables, [step], [playing], [timer] and
    [speed], and changes them in the handlers it installs. The model has
    one event per handler. [ticking] says whether an interval is scheduled:
    [setInterval] sets it, [clearInterval(timer)] clears it, and the callback
    of the interval, [Tick], can only run while it is set. The calls of
    [onStepChange] are the output of a handler. The value of the slider is
    a whole number; the value of the speed selector is a finite number,
    taken as a rational, or no number at all ([NaN]). *)

Module Controls.

Record t : Type := mk {
  step : Z;
  playing : bool;
  ticking : bool;
  speed : Q
}.

Inductive Event : Type :=
| Prev
| Next
| Play
| Slider (value : Z)
| Speed (value : option Q)
| Tick
| SetStep (s : Z).

Definition set_step (v : Z) (c : t) : t := mk v (playing c) (ticking c) (speed c).

Definition set_playing (v : bool) (c : t) : t := mk (step c) v (ticking c) (speed c).

Definition set_ticking (v : bool) (c : t) : t := mk (step c) (playing c) v (speed c).

Definition set_speed (v : Q) (c : t) : t := mk (step c) (playing c) (ticking c) v.

(** [Number(speedSelect.value) || 1] *)
Definition numberOr1 (value : option Q) : Q :=
  match value with
  | Some q => if Qeq_bool q 0 then 1%Q else q
  | None => 1%Q
  end.

(** The variables after [setupControls] has run; [speedSelect] is the value
    of the speed selector, when the page has one. *)
Definition init (speedSelect : option (option Q)) : t :=
  {| step := 0; playing := false; ticking := false;
     speed := match speedSelect with Some value => numberOr1 value | None => 1%Q end |}.

Definition setStep (maxStep : Z) (s : Z) (c : t) : t * list Z :=
  let step' := Z.max 0 (Z.min maxStep s) in
  (set_step step' c, [step']).

(** [clearInterval(timer); timer = setInterval(..., 500 / speed)]: an
    interval is scheduled. The time between two ticks plays no part in the
    model, and the period is not modelled. *)
Definition startTimer (c : t) : t := set_ticking true c.

Definition handle (maxStep : Z) (c : t) (e : Event) : t * list Z :=
  match e with
  | Prev => setStep maxStep (step c - 1) c
  | Next => setStep maxStep (step c + 1) c
  | Play =>
      if playing c then (set_playing false (set_ticking false c), [])
      else (startTimer (set_playing true c), [])
  | Slider value => setStep maxStep value c
  | Speed value =>
      let c' := set_speed (numberOr1 value) c in
      if playing c' then (startTimer c', []) else (c', [])
  | Tick =>
      if ticking c then
        if (maxStep <=? step c)%Z then (set_playing false (set_ticking false c), [])
        else setStep maxStep (step c + 1) c
      else (c, [])
  | SetStep s => setStep maxStep s c
  end.

(** A sequence of events, with the steps reported to [onStepChange]. *)
Fixpoint run (maxStep : Z) (c : t) (events : list Event) : t * list Z :=
  match events with
  | [] => (c, [])
  | e :: rest =>
      let '(c1, out1) := handle maxStep c e in
      let '(c2, out2) := run maxStep c1 rest in
      (c2, out1 ++ out2)
  end.

End Controls.

(** [playing] is set exactly while an interval is scheduled, and [speed]
    is not 0. *)
Definition steady (c : Controls.t) : Prop :=
  Controls.playing c = Controls.ticking c /\ ~ (Controls.speed c == 0)%Q.

(** ** Drawing a snapshot: [frontend/js/renderer.js]

    What the functions write into the page is modelled by what they are
    given to write: the face of a card, the cards of a hand element, the
    slot of a trick card. A character of a card stands for the UTF-16 code
    unit of the same number, so the cards of the model are those whose code
    units are below 256, as the card names of a recorded round are ("AS",
    "7H", "TD"). *)

(** [card.slice(0, -1)]: a card without its suit letter. *)
Fixpoint rankRawOf (c : Card) : string :=
  match c with
  | EmptyString => EmptyString
  | String _ EmptyString => EmptyString
  | String x rest => String x (rankRawOf rest)
  end.

(** The text of the suit span, [suitMap[suit] ?? suit]: one of the four
    suit signs, or the suit letter itself. *)
Inductive SuitText : Type :=
| Spade
| Heart
| Diamond
| Club
| Plain (suit : string).

Definition suitSymbol (suit : string) : SuitText :=
  if decide (suit = "S") then Spade
  else if decide (suit = "H") then Heart
  else if decide (suit = "D") then Diamond
  else if decide (suit = "C") then Club
  else Plain suit.

(** The exception of [classList.add] for a class name that contains white
    space. *)
Inductive DomError : Type := InvalidCharacterError.

(** ASCII white space: tab, line feed, form feed, carriage return, space. *)
Definition isWhiteSpace (a : Ascii.ascii) : bool :=
  let n := Ascii.nat_of_ascii a in
  (n =? 9)%nat || (n =? 10)%nat || (n =? 12)%nat || (n =? 13)%nat || (n =? 32)%nat.

Fixpoint hasWhiteSpace (s : string) : bool :=
  match s with
  | EmptyString => false
  | String a rest => isWhiteSpace a || hasWhiteSpace rest
  end.

(** What [renderCardFace] leaves in the element: the text "-", or the
    classes [face] and [suit-X] with a rank span and a suit span. *)
Inductive Face : Type :=
| Dash
| Spans (suitClass : string) (rank : string) (suit : SuitText).

(** [renderCardFace]: the face, or the exception of
    [el.classList.add("face", `suit-${suit}`)], which is thrown before the
    element is changed. *)
Definition renderCardFace (card : option Card) : DomError + Face :=
  match card with
  | None => inr Dash
  | Some c =>
      if decide (c = "") then inr Dash
      else
        let suit := suitOf c in
        let rankRaw := rankRawOf c in
        let rank := if decide (rankRaw = "T") then "10" else rankRaw in
        if hasWhiteSpace suit then inl InvalidCharacterError
        else inr (Spans ("suit-" +:+ suit) rank (suitSymbol suit))
  end.



Module Seat.
Record t : Type := mk {
  handId : string;
  slotIndex : Z;
  name : string
}.
End Seat.

Module SeatMap.
Record t : Type := mk {
  byPlayer : gmap Z Seat.t;
  bySeat : gmap string Z
}.
End SeatMap.

Definition seats : list Seat.t :=
  [ Seat.mk "hand-0" 0 "bottom"; Seat.mk "hand-3" 3 "right";
    Seat.mk "hand-1" 2 "top"; Seat.mk "hand-2" 1 "left" ].

Definition seatPlayers (povPlayer : Z) : list Z :=
  [ povPlayer; Z.rem (povPlayer + 1) 4; Z.rem (povPlayer + 2) 4;
    Z.rem (povPlayer + 3) 4 ].

Definition getSeatMap (povPlayer : Z) : SeatMap.t :=
  foldl (fun (m : SeatMap.t) (sp : Seat.t * Z) =>
           SeatMap.mk (<[sp.2 := sp.1]> (SeatMap.byPlayer m))
                      (<[Seat.handId sp.1 := sp.2]> (SeatMap.bySeat m)))
        (SeatMap.mk ∅ ∅) (zip seats (seatPlayers povPlayer)).







(** No two players of a seat map share a trick slot. *)
Definition slots_apart (m : SeatMap.t) : Prop :=
  map_Forall (fun (p : Z) (sp : Seat.t) =>
    map_Forall (fun (q : Z) (sq : Seat.t) =>
      Seat.slotIndex sp = Seat.slotIndex sq -> p = q) (SeatMap.byPlayer m))
    (SeatMap.byPlayer m).


(** The test [render] makes before it adds the class [last] to the card of
    the entry [e] of the trick: the last action is a PLAY_CARD of that card
    by that player. Two cards that are both missing compare equal, as two
    [undefined] do. *)
Definition isLast (lastAction : option Action.t) (e : Entry.t) : bool :=
  match lastAction with
  | Some a =>
      bool_decide (Action.type a = "PLAY_CARD")
      && bool_decide (Action.player a = Some (Entry.player e))
      && bool_decide (Action.payload a ≫= Payload.card = Entry.card e)
  | None => false
  end.

(** The test for the class [in-play]: that of [last], and the trick of the
    previous snapshot is one card shorter than [trickCards]. *)
Definition isInPlay (lastAction : option Action.t) (prevState : option State)
    (trickCards : list Entry.t) (e : Entry.t) : bool :=
  isLast lastAction e
  && match prevState with
     | Some ps =>
         bool_decide (Z.of_nat (length (trick ps)) = Z.of_nat (length trickCards) - 1)
     | None => false
     end.

(** ** The timeline: [buildTimeline] and [highlightStep] *)

Module Row.
Record t : Type := mk {
  classes : list string;
  stepText : string;
  text : string;
  select : nat
}.
End Row.

(** The rows [forEach] builds from index [i] on, with the variables
    [inPlaying] and [playsInPhase] as they are when it gets there. [label]
    is [formatActionLabel]; [select] is the argument the click handler of
    the row passes to [onSelect]. *)
Fixpoint rowsFrom (label : Action.t -> string) (actions : list Action.t) (i : nat)
    (inPlaying : bool) (playsInPhase : nat) : list Row.t :=
  match actions with
  | [] => []
  | a :: rest =>
      let contract := bool_decide (Action.type a = "FINALIZE_CONTRACT") in
      let inPlaying := if contract then true else inPlaying in
      let playsInPhase := if contract then 0%nat else playsInPhase in
      let counted := inPlaying && bool_decide (Action.type a = "PLAY_CARD") in
      let winner :=
        counted && (0 <? playsInPhase)%nat && (playsInPhase mod 4 =? 0)%nat in
      let row :=
        Row.mk
          (["timeline-row"]
             ++ match Action.player a with
                | Some p => ["player-" +:+ pretty p]
                | None => []
                end
             ++ (if contract then ["contract"] else [])
             ++ (if winner then ["trick-winner"] else []))
          ("[" +:+ pretty i +:+ "]")
          (label a)
          (i + 1) in
      row :: rowsFrom label rest (S i) inPlaying
               (if counted then (playsInPhase + 1)%nat else playsInPhase)
  end.

Definition buildTimeline (label : Action.t -> string) (actions : list Action.t)
    : list Row.t :=
  rowsFrom label actions 0 false 0.

(** The row carries the class [trick-winner]. *)
Definition marksWinner (r : Row.t) : Prop := "trick-winner" ∈ Row.classes r.

(** The trick of a snapshot once [k] cards have been played, one after the
    other, starting with an empty trick. *)
Definition after_plays (k : nat) (s : State) : Prop :=
  (trickComplete s = true <-> (0 < k)%nat /\ (k mod 4 = 0)%nat) /\
  length (trick s) = if trickComplete s then 4%nat else (k mod 4)%nat.

(** ** The page: [frontend/js/main.js]

    The module variables [currentStep], [povPlayer], [showAll] and
    [lastPopupStep], and what [update] hands to [render], [highlightStep]
    and [showToast]. *)

Module Main.

Record Globals : Type := mkGlobals {
  currentStep : nat;
  povPlayer : Z;
  showAll : bool;
  lastPopupStep : Z
}.

(** [toast] is the winner named by the toast, when one is shown. *)
Record View : Type := mkView {
  state : State;
  lastAction : option Action.t;
  prevState : option State;
  pov : Z;
  all : bool;
  highlighted : nat;
  toast : option (option Z)
}.

Definition initial : Globals := mkGlobals 0 0 false (-1).

Definition isPlayCard (a : option Action.t) : bool :=
  match a with
  | Some a => bool_decide (Action.type a = "PLAY_CARD")
  | None => false
  end.

(** [update(step)]: the view it draws, or the exception of [computeStateAt],
    and the module variables afterwards. *)
Definition update (json : Json.t) (g : Globals) (step : nat) : Result View * Globals :=
  let thrown := mkGlobals step (povPlayer g) (showAll g) (lastPopupStep g) in
  match computeStateAt json step with
  | inl e => (inl e, thrown)
  | inr state =>
      match (if (0 <? step)%nat
             then bindR (computeStateAt json (step - 1)) (fun s => inr (Some s))
             else inr None) with
      | inl e => (inl e, thrown)
      | inr prevState =>
          let lastAction :=
            if (0 <? step)%nat then Json.actions json !! (step - 1)%nat else None in
          let nextAction :=
            if (step <? length (Json.actions json))%nat
            then Json.actions json !! step else None in
          let state :=
            match lastAction ≫= Action.player with
            | Some p => set_currentPlayer (Some p) state
            | None =>
                match nextAction ≫= Action.player with
                | Some p => set_currentPlayer (Some p) state
                | None => state
                end
            end in
          let view := mkView state lastAction prevState (povPlayer g) (showAll g)
                        (Nat.max 0 (step - 1)) in
          let lastPopup :=
            if (Z.of_nat step <? lastPopupStep g)%Z then (-1) else lastPopupStep g in
          if isPlayCard lastAction && trickComplete state
             && negb (bool_decide (Z.of_nat step = lastPopup)) then
            let winner :=
              if isPlayCard nextAction then nextAction ≫= Action.player
              else lastAction ≫= Action.player in
            (inr (view (Some winner)),
             mkGlobals step (povPlayer g) (showAll g) (Z.of_nat step))
          else
            (inr (view None), mkGlobals step (povPlayer g) (showAll g) lastPopup)
      end
  end.



End Main.

(** *** [update] on the heap

    The part of [update] that works on the snapshots: the two replays, and
    the write to [state.currentPlayer]. The result is the pair of
    references [update] hands to [render]. *)

Module HeapMain.

Definition lastAction (j : Heap.Json.t) (step : nat) : option Action.t :=
  if (0 <? step)%nat then Heap.Json.actions j !! (step - 1)%nat else None.

Definition nextAction (j : Heap.Json.t) (step : nat) : option Action.t :=
  if (step <? length (Heap.Json.actions j))%nat then Heap.Json.actions j !! step else None.

(** [state.currentPlayer = lastAction.player], or [nextAction.player]. *)
Definition overwrite (j : Heap.Json.t) (step : nat) (state : Heap.loc) : Heap.M unit :=
  match lastAction j step ≫= Action.player with
  | Some p => Heap.update state (Heap.set_currentPlayer (Some p))
  | None =>
      match nextAction j step ≫= Action.player with
      | Some p => Heap.update state (Heap.set_currentPlayer (Some p))
      | None => Heap.ret tt
      end
  end.

Definition snapshots (j : Heap.Json.t) (step : nat) : Heap.M (Heap.loc * option Heap.loc) :=
  state ← Heap.computeStateAt j step;
  prevState ← (if (0 <? step)%nat
               then l ← Heap.computeStateAt j (step - 1); Heap.ret (Some l)
               else Heap.ret None);
  _ ← overwrite j step state;
  Heap.ret (state, prevState).

End HeapMain.

(** The references [r] of a run that ended in heap [h] lead to the
    snapshots of the view [r']. *)
Definition sameSnapshots (h : Heap.heap) (r : Result (Heap.loc * option Heap.loc))
    (r' : Result Main.View) : Prop :=
  match r, r' with
  | inr (l, lp), inr v =>
      holds h l (Main.state v) /\
      match lp, Main.prevState v with
      | Some lp, Some ps => holds h lp ps
      | None, None => True
      | _, _ => False
      end
  | inl e, inl e' => e = e'
  | _, _ => False
  end.

(** The page after [update] has drawn step [k] of the sample round, from a
    fresh start. *)
Definition sample_page (k : nat) : Main.View * Main.Globals :=
  match Main.update Sample.round Main.initial k with
  | (inr v, g) => (v, g)
  | (inl _, g) =>
      (Main.mkView (buildInitialState Sample.round) None None 0 false 0 None, g)
  end.

(** * The sample round, replayed *)

Example sample_bidding_ends :
  computeStateAt Sample.round 3 =
    inr {| phase := "PLAYING"; dealer := Some 3; currentPlayer := Some 1;
           floorCard := Some "AC"; hands := Sample.deal; trick := [];
           trickComplete := false;
           tricksWon := <[0 := 0]> (<[1 := 0]> (<[2 := 0]> (<[3 := 0]> ∅)));
           mode := Some "SUN"; trump := None |}.
Proof. vm_compute. reflexivity. Qed.

Example sample_first_trick :
  trick (Sample.at_step 7) =
    [Entry.mk 0 (Some "AS"); Entry.mk 1 (Some "KS"); Entry.mk 2 (Some "QS");
     Entry.mk 3 (Some "7H")] /\
  trickComplete (Sample.at_step 7) = true /\
  hands (Sample.at_step 7) !! 3 = Some ["JC"; "KD"; "9D"; "TH"].
Proof. by vm_compute. Qed.

Example sample_second_trick_opens :
  trick (Sample.at_step 8) = [Entry.mk 0 (Some "9H")] /\
  trickComplete (Sample.at_step 8) = false /\
  currentPlayer (Sample.at_step 8) = Some 1.
Proof. by vm_compute. Qed.

(** The log has eight actions: step 9 reads [json.actions[8]], which is
    [undefined]. *)
Example sample_past_the_log : computeStateAt Sample.round 9 = inl TypeError.
Proof. vm_compute. reflexivity. Qed.

Example sample_suits : suitOf "TS" = "S" /\ suitOf "7H" = "H".
Proof. by vm_compute. Qed.

(** * Properties of [applyAction] *)

Section ApplyAction.

Implicit Types (s : State) (a : Action.t) (p : Z) (pl : Payload.t).

Lemma trick_clearTrick s :
  trick (clearTrick s) = if trickComplete s then [] else trick s.
Proof. unfold clearTrick. by destruct (trickComplete s). Qed.

Lemma trickComplete_clearTrick s : trickComplete (clearTrick s) = false.
Proof. unfold clearTrick. by destruct (trickComplete s) eqn:E. Qed.

Lemma clearTrick_frame s :
  phase (clearTrick s) = phase s /\ dealer (clearTrick s) = dealer s /\
  currentPlayer (clearTrick s) = currentPlayer s /\
  floorCard (clearTrick s) = floorCard s /\ hands (clearTrick s) = hands s /\
  tricksWon (clearTrick s) = tricksWon s /\ mode (clearTrick s) = mode s /\
  trump (clearTrick s) = trump s.
Proof. unfold clearTrick. by destruct (trickComplete s). Qed.

(** An action of any other type only goes through the trick clearing. *)
Lemma applyAction_other s a :
  Action.type a <> "FINALIZE_CONTRACT" -> Action.type a <> "PLAY_CARD" ->
  applyAction s a = inr (clearTrick s).
Proof.
  intros Hf Hp. unfold applyAction, finalizeContract, playCard.
  rewrite decide_False by done. simpl. by rewrite decide_False.
Qed.

Lemma applyAction_finalize s a pl :
  Action.type a = "FINALIZE_CONTRACT" -> Action.payload a = Some pl ->
  applyAction s a =
    inr (set_currentPlayer (Payload.floor_taker pl)
          (set_trump (Payload.trump_suit pl)
            (set_mode (Payload.mode pl)
              (set_phase "PLAYING" (clearTrick s))))).
Proof.
  intros Ht Hpl. unfold applyAction, finalizeContract, playCard.
  rewrite decide_True by done. rewrite Hpl. simpl.
  rewrite decide_False; [done | by rewrite Ht].
Qed.

Lemma applyAction_play s a pl p h :
  Action.type a = "PLAY_CARD" -> Action.payload a = Some pl ->
  Action.player a = Some p -> hands s !! p = Some h ->
  applyAction s a = inr (played s p (Payload.card pl) h).
Proof.
  intros Ht Hpl Hp Hh. unfold applyAction, finalizeContract, playCard.
  rewrite decide_False by (by rewrite Ht). simpl.
  rewrite decide_True by done. rewrite Hpl, Hp.
  destruct (clearTrick_frame s) as (_ & _ & _ & _ & -> & _). by rewrite Hh.
Qed.

(** A [PLAY_CARD] that returns did find a payload, a player and a hand. *)
Lemma applyAction_play_inv s a s' :
  Action.type a = "PLAY_CARD" -> applyAction s a = inr s' ->
  exists pl p h, Action.payload a = Some pl /\ Action.player a = Some p /\
    hands s !! p = Some h /\ s' = played s p (Payload.card pl) h.
Proof.
  intros Ht H.
  destruct (Action.payload a) as [pl|] eqn:Hpl; cycle 1.
  { unfold applyAction, finalizeContract, playCard in H.
    rewrite decide_False in H by (by rewrite Ht). simpl in H.
    rewrite decide_True, Hpl in H; done. }
  destruct (Action.player a) as [p|] eqn:Hp; cycle 1.
  { unfold applyAction, finalizeContract, playCard in H.
    rewrite decide_False in H by (by rewrite Ht). simpl in H.
    rewrite decide_True, Hpl, Hp in H; done. }
  destruct (hands s !! p) as [h|] eqn:Hh; cycle 1.
  { unfold applyAction, finalizeContract, playCard in H.
    rewrite decide_False in H by (by rewrite Ht). simpl in H.
    rewrite decide_True, Hpl, Hp in H by done.
    destruct (clearTrick_frame s) as (_ & _ & _ & _ & Hc & _).
    rewrite Hc, Hh in H. done. }
  exists pl, p, h. rewrite (applyAction_play s a pl p h) in H by done.
  by injection H as <-.
Qed.

End ApplyAction.

(** ** Actions other than [FINALIZE_CONTRACT] and [PLAY_CARD] *)

(** C10. An action whose type is neither FINALIZE_CONTRACT nor PLAY_CARD
    never fails and returns the input snapshot with every field unchanged,
    except that a completed trick is emptied and [trickComplete] reset. *)
Theorem other_action_only_clears_trick (s : State) (a : Action.t) :
  Action.type a <> "FINALIZE_CONTRACT" -> Action.type a <> "PLAY_CARD" ->
  exists s', applyAction s a = inr s' /\
    phase s' = phase s /\ dealer s' = dealer s /\
    currentPlayer s' = currentPlayer s /\ floorCard s' = floorCard s /\
    hands s' = hands s /\ tricksWon s' = tricksWon s /\
    mode s' = mode s /\ trump s' = trump s /\
    (trickComplete s = true -> trick s' = [] /\ trickComplete s' = false) /\
    (trickComplete s = false -> s' = s).
Proof.
  intros Hf Hp. exists (clearTrick s).
  split; [by apply applyAction_other |].
  unfold clearTrick. destruct s as [? ? ? ? ? ? [] ? ? ?]; simpl; by repeat split.
Qed.

Lemma other_action_only_clears_trick_witness :
  exists s', applyAction (Sample.at_step 7) (Sample.pass 0) = inr s' /\
    phase s' = phase (Sample.at_step 7) /\ dealer s' = dealer (Sample.at_step 7) /\
    currentPlayer s' = currentPlayer (Sample.at_step 7) /\
    floorCard s' = floorCard (Sample.at_step 7) /\
    hands s' = hands (Sample.at_step 7) /\
    tricksWon s' = tricksWon (Sample.at_step 7) /\
    mode s' = mode (Sample.at_step 7) /\ trump s' = trump (Sample.at_step 7) /\
    (trickComplete (Sample.at_step 7) = true -> trick s' = [] /\ trickComplete s' = false) /\
    (trickComplete (Sample.at_step 7) = false -> s' = Sample.at_step 7).
Proof.
  apply (other_action_only_clears_trick (Sample.at_step 7) (Sample.pass 0)); simpl; done.
Defined.

(** ** [FINALIZE_CONTRACT] *)

(** C4, as the claim states it, fails: the floor card is still there after
    the contract has been finalized. *)
Lemma finalize_keeps_floorCard_counterexample :
  exists s', applyAction (Sample.at_step 2) (Sample.finalize "SUN" None 1) = inr s' /\
    floorCard (Sample.at_step 2) = Some "AC" /\ floorCard s' = Some "AC".
Proof. eexists. split; [vm_compute; reflexivity |]. by vm_compute. Qed.

(** C4, amended. A FINALIZE_CONTRACT action with a payload sets [mode],
    [trump], [phase = PLAYING] and [currentPlayer] from the payload and
    leaves [floorCard] as it was. *)
Theorem finalize_sets_contract (s : State) (a : Action.t) (pl : Payload.t) :
  Action.type a = "FINALIZE_CONTRACT" -> Action.payload a = Some pl ->
  exists s', applyAction s a = inr s' /\
    mode s' = Payload.mode pl /\ trump s' = Payload.trump_suit pl /\
    phase s' = "PLAYING" /\ currentPlayer s' = Payload.floor_taker pl /\
    floorCard s' = floorCard s.
Proof.
  intros Ht Hpl. eexists. split; [by apply applyAction_finalize |].
  simpl. repeat split. apply clearTrick_frame.
Qed.

Lemma finalize_sets_contract_witness :
  exists s', applyAction (Sample.at_step 2) (Sample.finalize "SUN" None 1) = inr s' /\
    mode s' = Some "SUN" /\ trump s' = None /\
    phase s' = "PLAYING" /\ currentPlayer s' = Some 1 /\
    floorCard s' = floorCard (Sample.at_step 2).
Proof.
  apply (finalize_sets_contract (Sample.at_step 2) (Sample.finalize "SUN" None 1)
           (Payload.mk None (Some "SUN") None (Some 1))); vm_compute; reflexivity.
Defined.

(** ** [PLAY_CARD]: turn order and trick completion *)

Lemma length_trick_played s p card h :
  length (trick (played s p card h)) = S (length (trick (clearTrick s))).
Proof.
  unfold played, playInto. case_decide; simpl; rewrite length_app; simpl; lia.
Qed.

Lemma played_frame s p card h :
  phase (played s p card h) = phase s /\ dealer (played s p card h) = dealer s /\
  floorCard (played s p card h) = floorCard s /\
  tricksWon (played s p card h) = tricksWon s /\
  mode (played s p card h) = mode s /\ trump (played s p card h) = trump s /\
  hands (played s p card h) = <[p := withoutCard card h]> (hands s) /\
  trick (played s p card h) = (trick (clearTrick s) ++ [Entry.mk p card])%list.
Proof.
  destruct (clearTrick_frame s) as (? & ? & ? & ? & ? & ? & ? & ?).
  unfold played, playInto. case_decide; simpl; repeat split; congruence.
Qed.

(** C6. After a PLAY_CARD by player [p] that leaves fewer than four cards
    in the trick, [currentPlayer] is [(p+1) mod 4]. *)
Theorem play_advances_turn (s s' : State) (a : Action.t) (p : Z) :
  Action.type a = "PLAY_CARD" -> Action.player a = Some p -> 0 <= p ->
  applyAction s a = inr s' -> (length (trick s') < 4)%nat ->
  currentPlayer s' = Some ((p + 1) mod 4).
Proof.
  intros Ht Hp Hp0 H Hlen.
  destruct (applyAction_play_inv s a s' Ht H) as (pl & p' & h & _ & Hp' & _ & ->).
  assert (p' = p) as -> by congruence.
  unfold played, playInto in *. case_decide as Hd; simpl in *; [lia |].
  by rewrite Z.rem_mod_nonneg by lia.
Qed.

Lemma play_advances_turn_witness :
  currentPlayer (Sample.at_step 5) = Some ((1 + 1) mod 4).
Proof.
  apply (play_advances_turn (Sample.at_step 4) (Sample.at_step 5) (Sample.play 1 "KS") 1);
    [reflexivity | reflexivity | lia | vm_compute; reflexivity | vm_compute; lia].
Defined.

(** A trick-completing [PLAY_CARD] hands the lead to its own player. *)
Lemma fourth_card_sets_currentPlayer s a s' p :
  Action.type a = "PLAY_CARD" -> Action.player a = Some p ->
  applyAction s a = inr s' -> length (trick s') = 4%nat ->
  currentPlayer s' = Some p.
Proof.
  intros Ht Hp H Hlen.
  destruct (applyAction_play_inv s a s' Ht H) as (pl & p' & h & _ & Hp' & _ & ->).
  assert (p' = p) as -> by congruence.
  unfold played, playInto in *. case_decide as Hd; simpl in *; [done | by destruct Hd].
Qed.

(** C3, as the claim states it, fails: the fourth card of the trick is
    played by player 3 and nobody's count in [tricksWon] moves. *)
Lemma trick_count_counterexample :
  exists s', applyAction (Sample.at_step 6) (Sample.play 3 "7H") = inr s' /\
    length (trick s') = 4%nat /\ trickComplete s' = true /\
    tricksWon (Sample.at_step 6) = <[0 := 0]> (<[1 := 0]> (<[2 := 0]> (<[3 := 0]> ∅))) /\
    tricksWon s' = <[0 := 0]> (<[1 := 0]> (<[2 := 0]> (<[3 := 0]> ∅))).
Proof. eexists. split; [vm_compute; reflexivity |]. by vm_compute. Qed.

(** C3, amended. A PLAY_CARD that brings the trick to four cards sets
    [trickComplete]; [tricksWon] is the input snapshot's. *)
Theorem fourth_card_completes_trick (s s' : State) (a : Action.t) :
  Action.type a = "PLAY_CARD" -> applyAction s a = inr s' ->
  length (trick s') = 4%nat ->
  trickComplete s' = true /\ tricksWon s' = tricksWon s.
Proof.
  intros Ht H Hlen.
  destruct (applyAction_play_inv s a s' Ht H) as (pl & p & h & _ & _ & _ & ->).
  split; [| apply played_frame].
  unfold played, playInto in *. case_decide as Hd; simpl in *; [done | by destruct Hd].
Qed.

Lemma fourth_card_completes_trick_witness :
  trickComplete (Sample.at_step 7) = true /\
  tricksWon (Sample.at_step 7) = tricksWon (Sample.at_step 6).
Proof.
  apply (fourth_card_completes_trick (Sample.at_step 6) (Sample.at_step 7) (Sample.play 3 "7H"));
    vm_compute; reflexivity.
Defined.

Lemma strongest_elem strength best t :
  strongest strength best t ∈ best :: t.
Proof.
  revert best. induction t as [|e t IH]; intros best; simpl; [by apply elem_of_cons; left |].
  match goal with |- strongest _ ?b _ ∈ _ => specialize (IH b); revert IH end.
  rewrite !elem_of_cons.
  destruct (Entry.card best), (Entry.card e); try destruct (_ <? _)%nat; tauto.
Qed.

(** C2: the reducer at the seventh action of the sample round, in phase
    PLAYING. Player 0 led the ace of spades, players 1 and 2 followed suit
    and player 3 threw a heart. The trick belongs to one of the three spades
    whatever the rank order, and [currentPlayer] is player 3. *)
Theorem fourth_player_takes_the_lead (strength : Card -> nat) :
  exists s' w, phase (Sample.at_step 6) = "PLAYING" /\
    applyAction (Sample.at_step 6) (Sample.play 3 "7H") = inr s' /\
    length (trick s') = 4%nat /\ currentPlayer s' = Some 3 /\
    resolveTrick strength (trick s') (trump s') = Some w /\
    (w = 0 \/ w = 1 \/ w = 2).
Proof.
  pose (e0 := Entry.mk 0 (Some "AS")). pose (e1 := Entry.mk 1 (Some "KS")).
  pose (e2 := Entry.mk 2 (Some "QS")).
  exists (Sample.at_step 7), (Entry.player (strongest strength e0 [e1; e2])).
  split; [vm_compute; reflexivity |]. split; [vm_compute; reflexivity |].
  split; [reflexivity |]. split; [reflexivity |].
  split; [reflexivity |].
  pose proof (strongest_elem strength e0 [e1; e2]) as Hin.
  repeat (apply elem_of_cons in Hin as [-> | Hin]); auto.
  by apply elem_of_nil in Hin.
Qed.

(** ** Phase *)

(** C5, as the claim states it, fails: the last card of the round is played,
    every hand is empty and the phase is still PLAYING. *)
Lemma empty_hands_not_done_counterexample :
  exists s', applyAction Sample.lastCard (Sample.play 0 "KC") = inr s' /\
    hands s' = <[0 := []]> (<[1 := []]> (<[2 := []]> (<[3 := []]> ∅))) /\
    phase s' = "PLAYING".
Proof. eexists. split; [vm_compute; reflexivity |]. by vm_compute. Qed.

(** C5, amended. [applyAction] never moves a snapshot to phase DONE: the
    phase it returns is PLAYING after FINALIZE_CONTRACT and the input
    snapshot's phase otherwise, so it is DONE only if it already was. *)
Theorem phase_after_action (s s' : State) (a : Action.t) :
  applyAction s a = inr s' ->
  phase s' = (if decide (Action.type a = "FINALIZE_CONTRACT") then "PLAYING" else phase s) /\
  (phase s' = "DONE" -> phase s = "DONE").
Proof.
  intros H.
  assert (phase s' = if decide (Action.type a = "FINALIZE_CONTRACT")
                     then "PLAYING" else phase s) as Hph.
  { case_decide as Hf.
    - destruct (Action.payload a) as [pl|] eqn:Hpl.
      + rewrite (applyAction_finalize s a pl Hf Hpl) in H. by injection H as <-.
      + unfold applyAction, finalizeContract in H.
        rewrite decide_True, Hpl in H; done.
    - destruct (decide (Action.type a = "PLAY_CARD")) as [Hp|Hp].
      + destruct (applyAction_play_inv s a s' Hp H) as (pl & p & h & _ & _ & _ & ->).
        apply played_frame.
      + rewrite applyAction_other in H by done. injection H as <-.
        apply clearTrick_frame. }
  split; [done |]. rewrite Hph. by case_decide.
Qed.

Lemma phase_after_action_witness :
  phase (Sample.at_step 8) =
    (if decide (Action.type (Sample.play 0 "9H") = "FINALIZE_CONTRACT")
     then "PLAYING" else phase (Sample.at_step 7)) /\
  (phase (Sample.at_step 8) = "DONE" -> phase (Sample.at_step 7) = "DONE").
Proof.
  apply (phase_after_action (Sample.at_step 7) (Sample.at_step 8) (Sample.play 0 "9H")).
  vm_compute; reflexivity.
Defined.

(** ** The trick buffer along a replay *)

Lemma trick_ok_init json : trick_ok (buildInitialState json).
Proof. split; simpl; [lia | split; [done | lia]]. Qed.

Lemma trick_ok_clearTrick s :
  trick_ok s ->
  (length (trick (clearTrick s)) < 4)%nat /\ trickComplete (clearTrick s) = false.
Proof.
  intros [Hle Hiff]. unfold clearTrick.
  destruct (trickComplete s) eqn:E; simpl; [split; [lia | done] |].
  split; [| done].
  destruct (decide (length (trick s) = 4%nat)) as [H4|H4]; [| lia].
  apply Hiff in H4. congruence.
Qed.

Lemma trick_ok_step s a s' :
  trick_ok s -> applyAction s a = inr s' -> trick_ok s'.
Proof.
  intros Hok H. destruct (trick_ok_clearTrick s Hok) as [Hlt Hfalse].
  destruct (decide (Action.type a = "PLAY_CARD")) as [Hp|Hp].
  - destruct (applyAction_play_inv s a s' Hp H) as (pl & p & h & _ & _ & _ & ->).
    pose proof (length_trick_played s p (Payload.card pl) h) as Hlen.
    split; [lia |].
    unfold played, playInto in *. case_decide as Hd; simpl in *.
    + split; [intros _; lia | done].
    + rewrite Hfalse. split; [done | lia].
  - destruct (decide (Action.type a = "FINALIZE_CONTRACT")) as [Hf|Hf].
    + destruct (Action.payload a) as [pl|] eqn:Hpl.
      * rewrite (applyAction_finalize s a pl Hf Hpl) in H. injection H as <-.
        unfold trick_ok. simpl. rewrite Hfalse. split; [lia | split; [done | lia]].
      * unfold applyAction, finalizeContract in H.
        rewrite decide_True, Hpl in H; done.
    + rewrite applyAction_other in H by done. injection H as <-.
      split; [lia |]. rewrite Hfalse. split; [done | lia].
Qed.

Lemma reachable_trick_ok json s : reachable json s -> trick_ok s.
Proof.
  induction 1 as [| s a s' _ IH H]; [apply trick_ok_init | by eapply trick_ok_step].
Qed.

Lemma replayFrom_reachable json acts n : forall i s0 s,
  reachable json s0 -> replayFrom acts i n s0 = inr s -> reachable json s.
Proof.
  induction n as [|n IH]; intros i s0 s Hs0 H; simpl in H.
  - by injection H as <-.
  - destruct (acts !! i) as [a|]; [| done].
    destruct (applyAction s0 a) as [e|s1] eqn:Ha; [done |].
    simpl in H. eapply IH; [| exact H]. by eapply reach_step.
Qed.

Lemma computeStateAt_reachable json k s :
  computeStateAt json k = inr s -> reachable json s.
Proof. apply replayFrom_reachable, reach_init. Qed.

(** C7. In every snapshot reachable from an initial snapshot the trick holds
    at most four entries; when it holds four, [trickComplete] is set; and
    the next action starts from an emptied trick with [trickComplete] reset:
    it leaves the trick empty, or holding the one card it plays. *)
Theorem trick_buffer_lifecycle (json : Json.t) (s : State) :
  reachable json s ->
  (length (trick s) <= 4)%nat /\
  (length (trick s) = 4%nat -> trickComplete s = true) /\
  (forall a s', length (trick s) = 4%nat -> applyAction s a = inr s' ->
     trickComplete s' = false /\
     ((Action.type a <> "PLAY_CARD" /\ trick s' = []) \/
      (exists p pl, Action.type a = "PLAY_CARD" /\ Action.player a = Some p /\
         Action.payload a = Some pl /\ trick s' = [Entry.mk p (Payload.card pl)]))).
Proof.
  intros Hr. destruct (reachable_trick_ok json s Hr) as [Hle Hiff].
  split; [done |]. split; [apply Hiff |].
  intros a s' H4 H. apply Hiff in H4 as Hc.
  assert (trick (clearTrick s) = []) as Hnil by (by rewrite trick_clearTrick, Hc).
  pose proof (trickComplete_clearTrick s) as Hfalse.
  destruct (decide (Action.type a = "PLAY_CARD")) as [Hp|Hp].
  - destruct (applyAction_play_inv s a s' Hp H) as (pl & p & h & Hpl & Hpp & _ & ->).
    assert (trick (played s p (Payload.card pl) h) = [Entry.mk p (Payload.card pl)]) as Ht.
    { destruct (played_frame s p (Payload.card pl) h) as (_&_&_&_&_&_&_& ->).
      by rewrite Hnil. }
    split; [| right; by exists p, pl].
    unfold played, playInto. simpl. rewrite Hnil. simpl. by rewrite Hfalse.
  - assert (trickComplete s' = false /\ trick s' = []) as [? ?]; [| by split; [| left]].
    destruct (decide (Action.type a = "FINALIZE_CONTRACT")) as [Hf|Hf].
    + destruct (Action.payload a) as [pl|] eqn:Hpl.
      * rewrite (applyAction_finalize s a pl Hf Hpl) in H. by injection H as <-.
      * unfold applyAction, finalizeContract in H.
        rewrite decide_True, Hpl in H; done.
    + rewrite applyAction_other in H by done. by injection H as <-.
Qed.

Lemma trick_buffer_lifecycle_witness :
  (length (trick (Sample.at_step 7)) <= 4)%nat /\
  (length (trick (Sample.at_step 7)) = 4%nat -> trickComplete (Sample.at_step 7) = true) /\
  (forall a s', length (trick (Sample.at_step 7)) = 4%nat ->
     applyAction (Sample.at_step 7) a = inr s' ->
     trickComplete s' = false /\
     ((Action.type a <> "PLAY_CARD" /\ trick s' = []) \/
      (exists p pl, Action.type a = "PLAY_CARD" /\ Action.player a = Some p /\
         Action.payload a = Some pl /\ trick s' = [Entry.mk p (Payload.card pl)]))).
Proof.
  apply (trick_buffer_lifecycle Sample.round (Sample.at_step 7)).
  apply (computeStateAt_reachable Sample.round 7). vm_compute. reflexivity.
Defined.

(** ** [PLAY_CARD] is not validated *)

Lemma withoutCard_absent (c : Card) (h : list Card) :
  c ∉ h -> withoutCard (Some c) h = h.
Proof.
  unfold withoutCard. induction h as [|x h IH]; intros Hc; [done |].
  apply not_elem_of_cons in Hc as [Hne Hc].
  rewrite filter_cons_True by congruence. by rewrite IH.
Qed.

(** C1, as the claim states it, fails: player 0 plays the queen of spades,
    which player 2 holds, and player 1, who holds the king of spades,
    answers the ace of spades with a diamond; both actions return a
    snapshot. *)
Lemma illegal_play_accepted_counterexample :
  (hands (Sample.at_step 3) !! 0 = Some ["AS"; "9H"; "TD"; "7C"; "KC"] /\
   exists s', applyAction (Sample.at_step 3) (Sample.play 0 "QS") = inr s' /\
     trick s' = [Entry.mk 0 (Some "QS")]) /\
  (hands (Sample.at_step 4) !! 1 = Some ["KS"; "7D"; "8H"; "9C"; "JD"] /\
   exists s', applyAction (Sample.at_step 4) (Sample.play 1 "7D") = inr s' /\
     trick s' = [Entry.mk 0 (Some "AS"); Entry.mk 1 (Some "7D")]).
Proof.
  split; (split; [by vm_compute |]); eexists; (split; [vm_compute; reflexivity |]);
    reflexivity.
Qed.

(** * The reducer on the heap and the reducer on values *)

Section HeapRefinement.

Implicit Types (h : Heap.heap) (l : Heap.loc) (s : State) (o : Heap.Obj.t)
  (refs : gmap Z Heap.loc) (m : gmap Z (list Card)).

Lemma bind_run {A B : Type} (c : Heap.M A) (k : A -> Heap.M B) h :
  (c ≫= k) h =
    match c h with
    | (inl e, h') => (inl e, h')
    | (inr a, h') => k a h'
    end.
Proof. reflexivity. Qed.

(** A typed load from a location that holds a cell of that type. *)
Local Ltac run_load :=
  let H := fresh in
  intros H;
  unfold Heap.loadSnapshot, Heap.loadHands, Heap.loadCards, Heap.loadEntries,
    Heap.loadCounts;
  rewrite bind_run; unfold Heap.load; by rewrite H.

Lemma loadSnapshot_run h l o :
  h !! l = Some (Heap.Snapshot o) -> Heap.loadSnapshot l h = (inr o, h).
Proof. run_load. Qed.

Lemma loadHands_run h l refs :
  h !! l = Some (Heap.Hands refs) -> Heap.loadHands l h = (inr refs, h).
Proof. run_load. Qed.

Lemma loadCards_run h l cs :
  h !! l = Some (Heap.Cards cs) -> Heap.loadCards l h = (inr cs, h).
Proof. run_load. Qed.

Lemma loadEntries_run h l es :
  h !! l = Some (Heap.Entries es) -> Heap.loadEntries l h = (inr es, h).
Proof. run_load. Qed.

Lemma loadCounts_run h l c :
  h !! l = Some (Heap.Counts c) -> Heap.loadCounts l h = (inr c, h).
Proof. run_load. Qed.

Lemma alloc_run h (c : Heap.cell) : Heap.alloc c h = (inr (length h), h ++ [c]).
Proof. reflexivity. Qed.

Lemma store_run h l (c : Heap.cell) : Heap.store l c h = (inr tt, <[l := c]> h).
Proof. reflexivity. Qed.

Lemma update_run h l o f :
  h !! l = Some (Heap.Snapshot o) ->
  Heap.update l f h = (inr tt, <[l := Heap.Snapshot (f o)]> h).
Proof. intros H. unfold Heap.update. rewrite bind_run. by rewrite (loadSnapshot_run h l o). Qed.

Lemma keepsCards_app h k : keepsCards h (h ++ k).
Proof. intros l cs H. by apply lookup_app_l_Some. Qed.

Lemma keepsCards_insert h l c :
  (forall cs, h !! l <> Some (Heap.Cards cs)) -> keepsCards h (<[l := c]> h).
Proof.
  intros Hl l' cs H. destruct (decide (l = l')) as [<-|Hne].
  - by destruct (Hl cs).
  - by rewrite list_lookup_insert_ne.
Qed.

Lemma keepsCards_trans h1 h2 h3 :
  keepsCards h1 h2 -> keepsCards h2 h3 -> keepsCards h1 h3.
Proof. intros H12 H23 l cs H. by apply H23, H12. Qed.

Lemma holdsHands_at h refs m :
  holdsHands h refs m <->
  forall p : Z, (fun l : nat => h !! l) <$> (refs !! p)
                = (fun cs => Some (Heap.Cards cs)) <$> (m !! p).
Proof.
  unfold holdsHands. split.
  - intros H p. by rewrite <- !lookup_fmap, H.
  - intros H. apply map_eq. intros p. by rewrite !lookup_fmap.
Qed.

Lemma holdsHands_keeps h h' refs m :
  holdsHands h refs m -> keepsCards h h' -> holdsHands h' refs m.
Proof.
  rewrite !holdsHands_at. intros H Hk p. specialize (H p).
  destruct (refs !! p) as [l|], (m !! p) as [cs|]; simpl in *; try done.
  injection H as H. by rewrite (Hk l cs).
Qed.

Lemma holdsHands_lookup h refs m p l :
  holdsHands h refs m -> refs !! p = Some l ->
  exists cs, h !! l = Some (Heap.Cards cs) /\ m !! p = Some cs.
Proof.
  rewrite holdsHands_at. intros H Hp. specialize (H p). rewrite Hp in H.
  destruct (m !! p) as [cs|]; simpl in H; [| done].
  injection H as H. by exists cs.
Qed.

Lemma holdsHands_absent h refs m p :
  holdsHands h refs m -> refs !! p = None -> m !! p = None.
Proof.
  rewrite holdsHands_at. intros H Hp. specialize (H p). rewrite Hp in H.
  by destruct (m !! p).
Qed.

(** An assignment to one value field keeps the other value fields. *)
Local Ltac same_fields :=
  let o := fresh in
  intros o (? & ? & ? & ? & ? & ? & ?); by repeat split.

(** A field assignment on an owned snapshot object. *)
Lemma update_owns n h l s f (g : State -> State) :
  owns n h l s ->
  (forall o, sameFields o s -> sameFields (f o) (g s)) ->
  (forall o, Heap.Obj.hands (f o) = Heap.Obj.hands o /\
             Heap.Obj.trick (f o) = Heap.Obj.trick o /\
             Heap.Obj.tricksWon (f o) = Heap.Obj.tricksWon o) ->
  hands (g s) = hands s -> trick (g s) = trick s -> tricksWon (g s) = tricksWon s ->
  exists h', Heap.update l f h = (inr tt, h') /\ owns n h' l (g s) /\
             take n h' = take n h.
Proof.
  intros (o & refs & Hl & Hh & Ht & Hw & Hhands & Hf & Hnl & Hnh & Hnt) Hfg Hrefs Eh Et Ew.
  destruct (Hrefs o) as (Rh & Rt & Rw).
  exists (<[l := Heap.Snapshot (f o)]> h). split; [by apply update_run |].
  split; [| by apply take_insert_ge].
  exists (f o), refs. rewrite Rh, Rt, Rw, Eh, Et, Ew.
  assert (forall l' c, h !! l' = Some c -> (forall o', c <> Heap.Snapshot o') ->
            <[l := Heap.Snapshot (f o)]> h !! l' = Some c) as Hother.
  { intros l' c Hl' Hc. rewrite list_lookup_insert_ne; [done |].
    intros ->. rewrite Hl in Hl'. injection Hl' as <-. by destruct (Hc o). }
  destruct (Hfg o Hf) as (? & ? & ? & ? & ? & ? & ?).
  repeat split; try done; try (by apply Hother).
  - apply list_lookup_insert_eq. by apply lookup_lt_Some in Hl.
  - eapply holdsHands_keeps; [done |]. apply keepsCards_insert.
    intros cs. by rewrite Hl.
Qed.

Lemma lookup_alloc h (c : Heap.cell) : (h ++ [c]) !! length h = Some c.
Proof. by rewrite lookup_app_r, Nat.sub_diag by lia. Qed.

Lemma lookup_store_other h l l' (c c' : Heap.cell) :
  h !! l' = Some c' -> l <> l' -> <[l := c]> h !! l' = Some c'.
Proof. intros H Hne. by rewrite list_lookup_insert_ne. Qed.

Lemma lookup_store h l (c c' : Heap.cell) :
  h !! l = Some c' -> <[l := c]> h !! l = Some c.
Proof. intros H. apply list_lookup_insert_eq. by apply lookup_lt_Some in H. Qed.

Lemma owns_bound n h l s : owns n h l s -> (n <= length h)%nat.
Proof.
  intros (o & refs & Hl & _ & _ & _ & _ & _ & Hnl & _).
  apply lookup_lt_Some in Hl. lia.
Qed.

Lemma clearTrick_owns n h l s :
  owns n h l s ->
  exists h', Heap.clearTrick l h = (inr tt, h') /\ owns n h' l (clearTrick s) /\
             take n h' = take n h.
Proof.
  intros Ho. pose proof (owns_bound n h l s Ho) as Hn.
  destruct Ho as (o & refs & Hl & Hh & Ht & Hw & Hhands & Hf & Hnl & Hnh & Hnt).
  unfold Heap.clearTrick, clearTrick. rewrite bind_run, (loadSnapshot_run h l o Hl).
  destruct Hf as (Fp & Fd & Fc & Ff & Fk & Fm & Fu). rewrite Fk.
  destruct (trickComplete s) eqn:Hk; cycle 1.
  { exists h. split; [done |]. split; [| done].
    exists o, refs. repeat split; congruence. }
  rewrite bind_run, alloc_run, bind_run.
  assert ((h ++ [Heap.Entries []]) !! l = Some (Heap.Snapshot o)) as Hl1
    by (by apply lookup_app_l_Some).
  rewrite (update_run _ l o _ Hl1).
  set (h2 := <[l := Heap.Snapshot (Heap.set_trick (length h) o)]> (h ++ [Heap.Entries []])).
  assert (owns n h2 l (set_trick [] s)) as Ho2.
  { exists (Heap.set_trick (length h) o), refs. apply lookup_lt_Some in Hl as Hlt.
    assert (forall l' c, h !! l' = Some c -> l <> l' -> h2 !! l' = Some c) as Hother.
    { intros l' c Hl' Hne. apply lookup_store_other; [| done]. by apply lookup_app_l_Some. }
    simpl. repeat split; try done; try (simpl; congruence).
    - by eapply lookup_store.
    - apply Hother; [done |]. intros ->. congruence.
    - apply lookup_store_other; [apply lookup_alloc | lia].
    - apply Hother; [done |]. intros ->. congruence.
    - eapply holdsHands_keeps; [done |].
      eapply keepsCards_trans; [apply keepsCards_app |].
      apply keepsCards_insert. intros cs. by rewrite Hl1. }
  destruct (update_owns n h2 l (set_trick [] s) (Heap.set_trickComplete false)
              (set_trickComplete false) Ho2) as (h3 & Hrun & Ho3 & Htake); try done.
  { same_fields. }
  exists h3. split; [done |]. split; [done |].
  rewrite Htake. unfold h2. rewrite take_insert_ge by done. by apply take_app_le.
Qed.

Lemma finalizeContract_owns n h l s a :
  owns n h l s ->
  exists r h', Heap.finalizeContract a l h = (r, h') /\ take n h' = take n h /\
    match finalizeContract a s with
    | inl e => r = inl e
    | inr s' => r = inr tt /\ owns n h' l s'
    end.
Proof.
  intros Ho. unfold Heap.finalizeContract, finalizeContract.
  case_decide as Hty; [| by exists (inr tt), h].
  destruct (update_owns n h l s (Heap.set_phase "PLAYING") (set_phase "PLAYING") Ho)
    as (h1 & Hrun1 & Ho1 & Ht1); try done.
  { same_fields. }
  rewrite bind_run, Hrun1.
  destruct (Action.payload a) as [pl|]; [| by exists (inl TypeError), h1].
  destruct (update_owns n h1 l _ (Heap.set_mode (Payload.mode pl))
              (set_mode (Payload.mode pl)) Ho1) as (h2 & Hrun2 & Ho2 & Ht2); try done.
  { same_fields. }
  destruct (update_owns n h2 l _ (Heap.set_trump (Payload.trump_suit pl))
              (set_trump (Payload.trump_suit pl)) Ho2) as (h3 & Hrun3 & Ho3 & Ht3); try done.
  { same_fields. }
  destruct (update_owns n h3 l _ (Heap.set_currentPlayer (Payload.floor_taker pl))
              (set_currentPlayer (Payload.floor_taker pl)) Ho3) as (h4 & Hrun4 & Ho4 & Ht4);
    try done.
  { same_fields. }
  rewrite bind_run, Hrun2, bind_run, Hrun3, Hrun4.
  exists (inr tt), h4. split; [done |]. split; [congruence | done].
Qed.

Lemma playCard_owns n h l s a :
  owns n h l s ->
  exists r h', Heap.playCard a l h = (r, h') /\ take n h' = take n h /\
    match playCard a s with
    | inl e => r = inl e
    | inr s' => r = inr tt /\ owns n h' l s'
    end.
Proof.
  intros Ho. pose proof (owns_bound n h l s Ho) as Hn.
  unfold Heap.playCard, playCard.
  case_decide as Hty; [| by exists (inr tt), h].
  destruct (Action.payload a) as [pl|]; [| by exists (inl TypeError), h].
  destruct (Action.player a) as [p|]; [| by exists (inl TypeError), h].
  destruct Ho as (o & refs & Hl & Hh & Ht & Hw & Hhands & Hf & Hnl & Hnh & Hnt).
  rewrite bind_run, (loadSnapshot_run h l o Hl).
  rewrite bind_run, (loadHands_run h _ refs Hh).
  destruct (refs !! p) as [hand|] eqn:Hp; cycle 1.
  { rewrite (holdsHands_absent h refs (hands s) p Hhands Hp).
    by exists (inl TypeError), h. }
  destruct (holdsHands_lookup h refs (hands s) p hand Hhands Hp) as (cs & Hhand & Hcs).
  rewrite Hcs.
  set (card := Payload.card pl). set (e := Entry.mk p card).
  rewrite bind_run, (loadCards_run h hand cs Hhand), bind_run, alloc_run.
  rewrite bind_run, store_run.
  set (h1 := h ++ [Heap.Cards (withoutCard card cs)]).
  set (h2 := <[Heap.Obj.hands o := Heap.Hands (<[p := length h]> refs)]> h1).
  assert (keepsCards h h2) as Hk2.
  { eapply keepsCards_trans; [apply keepsCards_app |].
    apply keepsCards_insert. intros cs'. unfold h1.
    rewrite (lookup_app_l_Some _ _ _ _ Hh). congruence. }
  assert (forall l' c, h !! l' = Some c -> Heap.Obj.hands o <> l' -> h2 !! l' = Some c)
    as Hother2.
  { intros l' c Hl' Hne. apply lookup_store_other; [| done]. by apply lookup_app_l_Some. }
  assert (h2 !! Heap.Obj.trick o = Some (Heap.Entries (trick s))) as Ht2.
  { apply Hother2; [done |]. intros E. rewrite E in Hh. congruence. }
  rewrite bind_run, (loadEntries_run h2 _ _ Ht2).
  rewrite bind_run, store_run.
  set (h3 := <[Heap.Obj.trick o := Heap.Entries (trick s ++ [e])]> h2).
  assert (h3 !! Heap.Obj.trick o = Some (Heap.Entries (trick s ++ [e]))) as Ht3
    by (by eapply lookup_store).
  rewrite bind_run, (loadEntries_run h3 _ _ Ht3).
  set (s2 := set_trick (trick s ++ [e])
               (set_hands (<[p := withoutCard card cs]> (hands s)) s)).
  assert (take n h3 = take n h) as Htake3.
  { unfold h3, h2, h1. rewrite !take_insert_ge by done. by apply take_app_le. }
  assert (owns n h3 l s2) as Ho3.
  { exists o, (<[p := length h]> refs).
    assert (forall l' c, h2 !! l' = Some c -> Heap.Obj.trick o <> l' -> h3 !! l' = Some c)
      as Hother3 by (intros; by apply lookup_store_other).
    repeat split; try done; try apply Hf.
    - apply Hother3; [| intros E; rewrite E in Ht; congruence].
      apply Hother2; [done | intros E; rewrite E in Hh; congruence].
    - apply Hother3; [| intros E; rewrite E in Ht; congruence].
      by eapply lookup_store, lookup_app_l_Some.
    - apply Hother3; [| intros E; rewrite E in Ht; congruence].
      apply Hother2; [done | intros E; rewrite E in Hh; congruence].
    - apply holdsHands_at. intros q. simpl. destruct (decide (p = q)) as [<-|Hne].
      + rewrite !lookup_insert_eq. simpl. f_equal.
        apply lookup_store_other; [| intros E; rewrite <- E in Hn; apply lookup_lt_Some in Ht; lia].
        apply lookup_store_other; [apply lookup_alloc |].
        apply lookup_lt_Some in Hh. lia.
      + rewrite !lookup_insert_ne by done.
        assert (keepsCards h h3) as Hk3.
        { eapply keepsCards_trans; [exact Hk2 |]. apply keepsCards_insert.
          intros cs'. rewrite Ht2. congruence. }
        apply (proj1 (holdsHands_at h3 refs (hands s))
                 (holdsHands_keeps h h3 refs (hands s) Hhands Hk3) q). }
  case_decide as H4.
  - destruct (update_owns n h3 l s2 (Heap.set_currentPlayer (Some p))
                (set_currentPlayer (Some p)) Ho3) as (h4 & Hrun4 & Ho4 & Ht4); try done.
    { same_fields. }
    destruct (update_owns n h4 l _ (Heap.set_trickComplete true)
                (set_trickComplete true) Ho4) as (h5 & Hrun5 & Ho5 & Ht5); try done.
    { same_fields. }
    rewrite bind_run, Hrun4, Hrun5.
    exists (inr tt), h5. split; [done |]. split; [congruence |].
    unfold playInto. simpl. rewrite decide_True by done. done.
  - destruct (update_owns n h3 l s2 (Heap.set_currentPlayer (Some (Z.rem (p + 1) 4)))
                (set_currentPlayer (Some (Z.rem (p + 1) 4))) Ho3)
      as (h4 & Hrun4 & Ho4 & Ht4); try done.
    { same_fields. }
    rewrite Hrun4.
    exists (inr tt), h4. split; [done |]. split; [congruence |].
    unfold playInto. simpl. rewrite decide_False by done. done.
Qed.

(** Filling the hands object at [hl], which holds [acc] so far, from the
    arrays listed in [src]. *)
Lemma fillHands_spec hl : forall (src : list (Z * nat)) h (acc : gmap Z nat),
  NoDup src.*1 ->
  h !! hl = Some (Heap.Hands acc) ->
  (forall p l, (p, l) ∈ src -> exists cs, h !! l = Some (Heap.Cards cs)) ->
  (forall p l, acc !! p = Some l -> exists cs, h !! l = Some (Heap.Cards cs)) ->
  exists h' (acc' : gmap Z nat),
    Heap.fillHands src hl h = (inr tt, h') /\
    h' !! hl = Some (Heap.Hands acc') /\
    (forall i c, h !! i = Some c -> i <> hl -> h' !! i = Some c) /\
    take hl h' = take hl h /\
    (forall p, (fun l : nat => h' !! l) <$> (acc' !! p)
               = (fun l : nat => h !! l) <$> ((list_to_map src ∪ acc) !! p)).
Proof.
  induction src as [|[p0 l0] rest IH]; intros h acc Hnd Hhl Hsrc Hacc.
  - exists h, acc. repeat split; try done.
    intros p. simpl. by rewrite (left_id ∅ (∪)).
  - apply NoDup_cons in Hnd as [Hp0 Hnd].
    destruct (Hsrc p0 l0) as (cs & Hl0); [by apply elem_of_cons; left |].
    simpl. rewrite bind_run, (loadCards_run h l0 cs Hl0), bind_run, alloc_run.
    set (h1 := h ++ [Heap.Cards cs]).
    assert (h1 !! hl = Some (Heap.Hands acc)) as Hhl1 by (by apply lookup_app_l_Some).
    rewrite bind_run, (loadHands_run h1 hl acc Hhl1), bind_run, store_run.
    set (h2 := <[hl := Heap.Hands (<[p0 := length h]> acc)]> h1).
    assert (forall i c, h !! i = Some c -> i <> hl -> h2 !! i = Some c) as Hother.
    { intros i c Hi Hne. apply lookup_store_other; [| done]. by apply lookup_app_l_Some. }
    assert (forall l cs', h !! l = Some (Heap.Cards cs') -> h2 !! l = Some (Heap.Cards cs'))
      as Hcards.
    { intros l cs' Hl. apply Hother; [done |]. intros ->. congruence. }
    assert (h2 !! length h = Some (Heap.Cards cs)) as Hnew.
    { apply lookup_store_other; [apply lookup_alloc |].
      apply lookup_lt_Some in Hhl. lia. }
    destruct (IH h2 (<[p0 := length h]> acc)) as (h' & acc' & Hrun & Hhl' & Hfr & Htk & Hrel);
      [done | by eapply lookup_store | | |].
    { intros p l Hin. destruct (Hsrc p l) as (cs' & Hl); [by apply elem_of_cons; right |].
      exists cs'. by apply Hcards. }
    { intros p l Hpl. destruct (decide (p0 = p)) as [<-|Hne].
      - rewrite lookup_insert_eq in Hpl. injection Hpl as <-. by exists cs.
      - rewrite lookup_insert_ne in Hpl by done.
        destruct (Hacc p l Hpl) as (cs' & Hl). exists cs'. by apply Hcards. }
    exists h', acc'. split; [done |]. split; [done |].
    split; [intros i c Hi Hne; apply Hfr; [by apply Hother | done] |].
    split.
    { rewrite Htk. unfold h2, h1. rewrite take_insert_ge by done.
      apply take_app_le. apply lookup_lt_Some in Hhl. lia. }
    intros p. rewrite Hrel.
    assert (list_to_map rest !! p0 = (None : option nat)) as Hfresh
      by (by apply not_elem_of_list_to_map_1).
    destruct (decide (p0 = p)) as [<-|Hne].
    + rewrite (lookup_union_r _ _ _ Hfresh), lookup_insert_eq.
      rewrite (lookup_union_Some_l _ acc p0 l0) by apply lookup_insert_eq.
      simpl. by rewrite Hnew, Hl0.
    + assert ((list_to_map rest ∪ <[p0 := length h]> acc) !! p
              = (<[p0 := l0]> (list_to_map rest) ∪ acc) !! p) as ->.
      { rewrite !lookup_union, !lookup_insert_ne by done. done. }
      destruct ((<[p0 := l0]> (list_to_map rest) ∪ acc) !! p) as [l|] eqn:Hl; [| done].
      simpl. f_equal.
      assert (exists cs', h !! l = Some (Heap.Cards cs')) as (cs' & Hcs').
      { apply lookup_union_Some_raw in Hl as [Hl | [_ Hl]]; [| by eapply Hacc].
        rewrite lookup_insert_ne in Hl by done.
        apply elem_of_list_to_map_2 in Hl. eapply Hsrc. apply elem_of_cons. by right. }
      by rewrite Hcs', (Hcards l cs').
Qed.

(** [copyHands] allocates a copy of the hands and changes nothing else. *)
Lemma copyHands_spec h src refs m :
  h !! src = Some (Heap.Hands refs) -> holdsHands h refs m ->
  exists h' (refs' : gmap Z nat),
    Heap.copyHands src h = (inr (length h), h') /\
    h' !! length h = Some (Heap.Hands refs') /\
    holdsHands h' refs' m /\
    take (length h) h' = h.
Proof.
  intros Hsrc Hm. unfold Heap.copyHands.
  rewrite bind_run, (loadHands_run h src refs Hsrc), bind_run, alloc_run.
  set (h1 := h ++ [Heap.Hands ∅]).
  destruct (fillHands_spec (length h) (map_to_list refs) h1 ∅)
    as (h' & acc' & Hrun & Hhl' & Hfr & Htk & Hrel).
  - apply NoDup_fst_map_to_list.
  - apply lookup_alloc.
  - intros p l Hin. apply elem_of_map_to_list in Hin.
    destruct (holdsHands_lookup h refs m p l Hm Hin) as (cs & Hl & _).
    exists cs. by apply lookup_app_l_Some.
  - intros p l Hpl. by rewrite lookup_empty in Hpl.
  - rewrite bind_run, Hrun. exists h', acc'. split; [done |]. split; [done |].
    split; [| by rewrite Htk; unfold h1; rewrite take_app_length].
    apply holdsHands_at. intros p.
    rewrite Hrel, list_to_map_to_list, (right_id ∅ (∪)),
      <- (proj1 (holdsHands_at h refs m) Hm p).
    destruct (refs !! p) as [l|] eqn:Hp; [| done]. simpl. f_equal.
    destruct (holdsHands_lookup h refs m p l Hm Hp) as (cs & Hl & _).
    rewrite Hl. by apply lookup_app_l_Some.
Qed.

Lemma take_length_prefix h h' : take (length h) h' = h -> h `prefix_of` h'.
Proof. intros <-. apply prefix_take. Qed.

Lemma holdsHands_prefix h h' refs m :
  holdsHands h refs m -> h `prefix_of` h' -> holdsHands h' refs m.
Proof.
  intros H Hp. eapply holdsHands_keeps; [done |].
  intros l cs Hl. by eapply prefix_lookup_Some.
Qed.

Lemma owns_prefix n h h' l s : owns n h l s -> h `prefix_of` h' -> owns n h' l s.
Proof.
  intros (o & refs & Hl & Hh & Ht & Hw & Hhands & Hf & Hb) Hp.
  exists o, refs.
  repeat split; try apply Hf; try apply Hb; try (by eapply prefix_lookup_Some).
  by eapply holdsHands_prefix.
Qed.

Lemma owns_weaken n h l s : owns n h l s -> holds h l s.
Proof.
  intros (o & refs & Hl & Hh & Ht & Hw & Hhands & Hf & _).
  exists o, refs. repeat split; try apply Hf; try done; lia.
Qed.

Lemma holdsJson_prefix h h' j json :
  holdsJson h j json -> h `prefix_of` h' -> holdsJson h' j json.
Proof.
  intros (? & ? & ? & ? & ? & refs & Hl & Hm) Hp. repeat split; try done.
  exists refs. split; [by eapply prefix_lookup_Some | by eapply holdsHands_prefix].
Qed.

Lemma holdsHands_functional h refs m m' :
  holdsHands h refs m -> holdsHands h refs m' -> m = m'.
Proof.
  rewrite !holdsHands_at.
  intros H H'. apply map_eq. intros p. specialize (H p). specialize (H' p).
  rewrite H in H'. destruct (m !! p), (m' !! p); simpl in H'; congruence.
Qed.

(** A reference denotes one snapshot. *)
Lemma holds_functional h l s s' : holds h l s -> holds h l s' -> s = s'.
Proof.
  intros (o & refs & Hl & Hh & Ht & Hw & Hhands & Hf & _)
         (o' & refs' & Hl' & Hh' & Ht' & Hw' & Hhands' & Hf' & _).
  assert (o' = o) as -> by congruence.
  assert (refs' = refs) as -> by congruence.
  pose proof (holdsHands_functional h refs _ _ Hhands Hhands') as Eh.
  destruct Hf as (? & ? & ? & ? & ? & ? & ?), Hf' as (? & ? & ? & ? & ? & ? & ?).
  destruct s, s'; simpl in *. f_equal; congruence.
Qed.

Lemma structuredClone_spec h l s :
  holds h l s ->
  exists l' h', Heap.structuredClone l h = (inr l', h') /\
    owns (length h) h' l' s /\ take (length h) h' = h.
Proof.
  intros (o & refs & Hl & Hh & Ht & Hw & Hhands & Hf & _).
  unfold Heap.structuredClone. rewrite bind_run, (loadSnapshot_run h l o Hl).
  destruct (copyHands_spec h _ refs (hands s) Hh Hhands)
    as (h1 & refs' & Hrun & Hh1 & Hhands1 & Htk).
  pose proof (take_length_prefix h h1 Htk) as Hp1.
  rewrite bind_run, Hrun.
  rewrite bind_run, (loadEntries_run h1 _ (trick s)) by (by eapply prefix_lookup_Some).
  rewrite bind_run, alloc_run.
  set (h2 := h1 ++ [Heap.Entries (trick s)]).
  rewrite bind_run, (loadCounts_run h2 _ (tricksWon s))
    by (by apply lookup_app_l_Some; eapply prefix_lookup_Some).
  rewrite bind_run, alloc_run, alloc_run.
  set (h3 := h2 ++ [Heap.Counts (tricksWon s)]).
  apply lookup_lt_Some in Hh1 as Hlen1.
  assert (length h2 = S (length h1)) as Hlen2 by (unfold h2; rewrite length_app; simpl; lia).
  assert (length h3 = S (length h2)) as Hlen3 by (unfold h3; rewrite length_app; simpl; lia).
  eexists _, _. split; [reflexivity |]. split.
  - exists (Heap.Obj.mk (Heap.Obj.phase o) (Heap.Obj.dealer o) (Heap.Obj.currentPlayer o)
              (Heap.Obj.floorCard o) (length h) (length h1) (Heap.Obj.trickComplete o)
              (length h2) (Heap.Obj.mode o) (Heap.Obj.trump o)), refs'.
    simpl. repeat split; try apply Hf; try (simpl; lia).
    + apply lookup_alloc.
    + unfold h3, h2. by do 3 apply lookup_app_l_Some.
    + unfold h3. do 2 apply lookup_app_l_Some. apply lookup_alloc.
    + apply lookup_app_l_Some, lookup_alloc.
    + eapply holdsHands_prefix; [done |]. unfold h3, h2. by do 3 apply prefix_app_r.
  - unfold h3, h2. rewrite !take_app_le by (rewrite ?length_app; simpl; lia). done.
Qed.

Lemma buildInitialState_spec h j json :
  holdsJson h j json ->
  exists l' h', Heap.buildInitialState j h = (inr l', h') /\
    owns (length h) h' l' (buildInitialState json) /\ take (length h) h' = h.
Proof.
  intros (Ep & Ed & Ec & Ef & _ & refs & Hl & Hm).
  unfold Heap.buildInitialState.
  destruct (copyHands_spec h _ refs _ Hl Hm) as (h1 & refs' & Hrun & Hh1 & Hhands1 & Htk).
  rewrite bind_run, Hrun, bind_run, alloc_run, bind_run, alloc_run, alloc_run.
  set (h2 := h1 ++ [Heap.Entries []]).
  set (h3 := h2 ++ [Heap.Counts (<[0 := 0]> (<[1 := 0]> (<[2 := 0]> (<[3 := 0]> ∅))))]).
  apply lookup_lt_Some in Hh1 as Hlen1.
  assert (length h2 = S (length h1)) as Hlen2 by (unfold h2; rewrite length_app; simpl; lia).
  assert (length h3 = S (length h2)) as Hlen3 by (unfold h3; rewrite length_app; simpl; lia).
  eexists _, _. split; [reflexivity |]. split.
  - exists (Heap.Obj.mk (Heap.Json.start_phase j) (Heap.Json.dealer j)
              (Heap.Json.current_player j) (Heap.Json.floor_card j)
              (length h) (length h1) false (length h2) None None), refs'.
    simpl. repeat split; try done; try (simpl; lia).
    + apply lookup_alloc.
    + unfold h3, h2. by do 3 apply lookup_app_l_Some.
    + unfold h3. do 2 apply lookup_app_l_Some. apply lookup_alloc.
    + apply lookup_app_l_Some, lookup_alloc.
    + rewrite map_fmap_id.
      eapply holdsHands_prefix; [done |]. unfold h3, h2. by do 3 apply prefix_app_r.
  - unfold h3, h2. rewrite !take_app_le by (rewrite ?length_app; simpl; lia). done.
Qed.

(** [Heap.applyAction] computes [applyAction] into fresh objects. *)
Lemma applyAction_refines h l s a :
  holds h l s ->
  exists r h', Heap.applyAction l a h = (r, h') /\ h `prefix_of` h' /\
    sameOutcome h' r (applyAction s a).
Proof.
  intros Hs. unfold Heap.applyAction, applyAction.
  destruct (structuredClone_spec h l s Hs) as (l1 & h1 & Hrun1 & Ho1 & Htk1).
  destruct (clearTrick_owns _ h1 l1 s Ho1) as (h2 & Hrun2 & Ho2 & Htk2).
  destruct (finalizeContract_owns _ h2 l1 _ a Ho2) as (r3 & h3 & Hrun3 & Htk3 & Hres3).
  rewrite bind_run, Hrun1, bind_run, Hrun2, bind_run, Hrun3.
  assert (take (length h) h3 = h) as Htk by congruence.
  destruct (finalizeContract a (clearTrick s)) as [e|s3].
  { subst r3. exists (inl e), h3. split; [done |].
    split; [by apply take_length_prefix | done]. }
  destruct Hres3 as [-> Ho3].
  destruct (playCard_owns _ h3 l1 s3 a Ho3) as (r4 & h4 & Hrun4 & Htk4 & Hres4).
  rewrite bind_run, Hrun4. simpl.
  assert (take (length h) h4 = h) as Htk' by congruence.
  destruct (playCard a s3) as [e|s4].
  { subst r4. exists (inl e), h4. split; [done |].
    split; [by apply take_length_prefix | done]. }
  destruct Hres4 as [-> Ho4].
  exists (inr l1), h4. split; [done |].
  split; [by apply take_length_prefix | by eapply owns_weaken].
Qed.



(** What [main.js] does to the snapshot it gets back,
    [state.currentPlayer = lastAction.player], leaves the round alone. *)
Lemma caller_write_keeps_round h l o o' j json :
  h !! l = Some (Heap.Snapshot o) -> holdsJson h j json ->
  holdsJson (<[l := Heap.Snapshot o']> h) j json.
Proof.
  intros Hl (? & ? & ? & ? & ? & refs & Hr & Hm). split_and!; try done.
  exists refs. split.
  - apply lookup_store_other; [done |]. intros ->. congruence.
  - eapply holdsHands_keeps; [done |]. apply keepsCards_insert.
    intros cs. by rewrite Hl.
Qed.


End HeapRefinement.







Lemma sample_holds_led :
  holds (snd Sample.led) (Sample.ref_of Sample.led) (Sample.at_step 4).
Proof.
  exists (Sample.obj_of Sample.led), (Sample.refs_of Sample.led).
  unfold holdsHands, sameFields.
  split_and!; try (vm_compute; reflexivity); apply Nat.le_0_l.
Defined.

(** C1, amended. [applyAction] does not check a PLAY_CARD in any way:
    whatever card the action names, in the hand of the acting player or
    not, of the suit that was led or not, the action returns a new
    snapshot. The card is appended to the trick, and the hand of the
    player is the old hand without the copies of the card, so that the
    hands are unchanged when the card was not held. On the heap the new
    snapshot is made of fresh objects, and the snapshot it was derived
    from is still there, as is every other object. *)
Theorem play_card_is_not_validated (s : State) (a : Action.t) (pl : Payload.t) (p : Z)
    (c : Card) (hand : list Card) (h : Heap.heap) (l : Heap.loc) :
  Action.type a = "PLAY_CARD" -> Action.payload a = Some pl ->
  Payload.card pl = Some c -> Action.player a = Some p ->
  hands s !! p = Some hand -> holds h l s ->
  exists s' l' h',
    applyAction s a = inr s' /\
    hands s' = <[p := withoutCard (Some c) hand]> (hands s) /\
    (c ∉ hand -> hands s' = hands s) /\
    trick s' = (if trickComplete s then [] else trick s) ++ [Entry.mk p (Some c)] /\
    Heap.applyAction l a h = (inr l', h') /\ h `prefix_of` h' /\
    holds h' l' s' /\ holds h' l s.
Proof.
  intros Hty Hpl Hc Hp Hhand Hs.
  pose proof (applyAction_play s a pl p hand Hty Hpl Hp Hhand) as Happ.
  destruct (applyAction_refines h l s a Hs) as (r & h' & Hrun & Hpre & Hout).
  rewrite Happ in Hout. destruct r as [e|l']; [done |]. simpl in Hout.
  exists (played s p (Payload.card pl) hand), l', h'.
  destruct (played_frame s p (Payload.card pl) hand) as (_&_&_&_&_&_& Eh & Et).
  split; [done |]. split; [by rewrite Eh, Hc |]. split.
  { intros Hnot. rewrite Eh, Hc, withoutCard_absent by done. by apply insert_id. }
  split; [by rewrite Et, trick_clearTrick, Hc |].
  split; [done |]. split; [done |]. split; [done | by eapply owns_prefix].
Qed.

(** Player 1, who holds the king of spades, answers the ace of spades
    with the seven of diamonds. *)
Lemma play_card_is_not_validated_witness :
  exists s' l' h',
    applyAction (Sample.at_step 4) (Sample.play 1 "7D") = inr s' /\
    hands s' = <[1 := withoutCard (Some "7D") ["KS"; "7D"; "8H"; "9C"; "JD"]]>
                 (hands (Sample.at_step 4)) /\
    ("7D" ∉ ["KS"; "7D"; "8H"; "9C"; "JD"] -> hands s' = hands (Sample.at_step 4)) /\
    trick s' = (if trickComplete (Sample.at_step 4) then [] else trick (Sample.at_step 4))
               ++ [Entry.mk 1 (Some "7D")] /\
    Heap.applyAction (Sample.ref_of Sample.led) (Sample.play 1 "7D") (snd Sample.led)
      = (inr l', h') /\
    snd Sample.led `prefix_of` h' /\
    holds h' l' s' /\ holds h' (Sample.ref_of Sample.led) (Sample.at_step 4).
Proof.
  apply (play_card_is_not_validated (Sample.at_step 4) (Sample.play 1 "7D")
           (Payload.mk (Some "7D") None None None) 1 "7D"
           ["KS"; "7D"; "8H"; "9C"; "JD"] (snd Sample.led) (Sample.ref_of Sample.led));
    [reflexivity | reflexivity | reflexivity | reflexivity | vm_compute; reflexivity |
     exact sample_holds_led].
Defined.

(** ** Conservation of the cards *)

Section Conservation.

Implicit Types (m : gmap Z (list Card)) (s : State) (a : Action.t).












End Conservation.




(** * More about the reducer *)

Section Reducer.

Implicit Types (s : State) (a : Action.t) (json : Json.t).

(** The three ways [applyAction] returns. *)
Lemma applyAction_inv s a s' :
  applyAction s a = inr s' ->
  (Action.type a <> "FINALIZE_CONTRACT" /\ Action.type a <> "PLAY_CARD" /\
     s' = clearTrick s) \/
  (exists pl, Action.type a = "FINALIZE_CONTRACT" /\ Action.payload a = Some pl /\
     s' = set_currentPlayer (Payload.floor_taker pl)
            (set_trump (Payload.trump_suit pl)
              (set_mode (Payload.mode pl) (set_phase "PLAYING" (clearTrick s))))) \/
  (exists pl p h, Action.type a = "PLAY_CARD" /\ Action.payload a = Some pl /\
     Action.player a = Some p /\ hands s !! p = Some h /\
     s' = played s p (Payload.card pl) h).
Proof.
  intros H. destruct (decide (Action.type a = "PLAY_CARD")) as [Hp|Hp].
  - right; right.
    destruct (applyAction_play_inv s a s' Hp H) as (pl & p & h & ? & ? & ? & ?).
    by exists pl, p, h.
  - destruct (decide (Action.type a = "FINALIZE_CONTRACT")) as [Hf|Hf].
    + right; left. destruct (Action.payload a) as [pl|] eqn:Hpl.
      * rewrite (applyAction_finalize s a pl Hf Hpl) in H. injection H as <-.
        by exists pl.
      * unfold applyAction, finalizeContract in H.
        rewrite decide_True, Hpl in H; done.
    + left. rewrite applyAction_other in H by done. by injection H as <-.
Qed.

End Reducer.

(** X1. [applyAction] throws in exactly four cases: a FINALIZE_CONTRACT
    without payload, and a PLAY_CARD without payload, without player, or
    by a player who has no hand in the snapshot. *)
Theorem applyAction_throws_iff (s : State) (a : Action.t) :
  applyAction s a = inl TypeError <->
  (Action.type a = "FINALIZE_CONTRACT" /\ Action.payload a = None) \/
  (Action.type a = "PLAY_CARD" /\
     (Action.payload a = None \/ Action.player a = None \/
      exists p, Action.player a = Some p /\ hands s !! p = None)).
Proof.
  destruct (clearTrick_frame s) as (_ & _ & _ & _ & Eh & _).
  unfold applyAction, finalizeContract, playCard.
  destruct (decide (Action.type a = "FINALIZE_CONTRACT")) as [Hf|Hf].
  - assert (Action.type a <> "PLAY_CARD") as Hp by (by rewrite Hf).
    destruct (Action.payload a) as [pl|]; simpl.
    + rewrite decide_False by done. split; [done |].
      intros [[_ ?] | [? _]]; done.
    + split; [by left | done].
  - simpl. destruct (decide (Action.type a = "PLAY_CARD")) as [Hp|Hp].
    + destruct (Action.payload a) as [pl|]; [| split; [by right; split; [| left] | done]].
      destruct (Action.player a) as [p|]; [| split; [by right; split; [| right; left] | done]].
      rewrite Eh. destruct (hands s !! p) as [h|] eqn:Hh.
      * split; [done |]. intros [[? _] | [_ [? | [? | (q & Hq & Hn)]]]]; try done.
        injection Hq as <-. congruence.
      * split; [| done]. intros _. right. split; [done |]. right; right. by exists p.
    + split; [done |]. intros [[? _] | [? _]]; done.
Qed.

(** ** [computeStateAt] and the log *)

Section Replay.

Implicit Types (s : State) (a : Action.t) (acts : list Action.t).

Lemma bindR_inr {A : Type} (r : Result A) : bindR r inr = r.
Proof. by destruct r. Qed.

Lemma bindR_assoc {A B C : Type} (r : Result A) (f : A -> Result B) (g : B -> Result C) :
  bindR (bindR r f) g = bindR r (fun x => bindR (f x) g).
Proof. by destruct r. Qed.

Lemma bindR_ext {A B : Type} (r : Result A) (f g : A -> Result B) :
  (forall x, f x = g x) -> bindR r f = bindR r g.
Proof. intros H. destruct r; simpl; [done | apply H]. Qed.

Lemma replayFrom_applyAll acts n : forall i s,
  (i + n <= length acts)%nat ->
  replayFrom acts i n s = applyAll s (take n (drop i acts)).
Proof.
  induction n as [|n IH]; intros i s Hlen; simpl; [done |].
  destruct (acts !! i) as [a|] eqn:Ha; cycle 1.
  { apply lookup_ge_None in Ha. lia. }
  rewrite (drop_S acts a i Ha). simpl.
  apply bindR_ext. intros s'. apply IH. lia.
Qed.

Lemma replayFrom_past_the_end acts n : forall i s,
  (i <= length acts)%nat -> (length acts < i + n)%nat ->
  replayFrom acts i n s = inl TypeError.
Proof.
  induction n as [|n IH]; intros i s Hi Hlen; simpl; [lia |].
  destruct (acts !! i) as [a|] eqn:Ha; [| done].
  apply lookup_lt_Some in Ha.
  destruct (applyAction s a) as [[]|s']; simpl; [done |].
  apply IH; lia.
Qed.

Lemma replayFrom_S acts i n s :
  replayFrom acts i (S n) s =
    match acts !! i with
    | None => inl TypeError
    | Some a => bindR (applyAction s a) (replayFrom acts (S i) n)
    end.
Proof. reflexivity. Qed.

Lemma replayFrom_snoc acts n : forall i s,
  replayFrom acts i (S n) s =
    bindR (replayFrom acts i n s)
      (fun s' => match acts !! (i + n)%nat with
                 | Some a => applyAction s' a
                 | None => inl TypeError
                 end).
Proof.
  induction n as [|n IH]; intros i s.
  - simpl. rewrite Nat.add_0_r. destruct (acts !! i); [apply bindR_inr | done].
  - rewrite (replayFrom_S acts i (S n)), (replayFrom_S acts i n).
    destruct (acts !! i) as [a|]; [| done].
    rewrite bindR_assoc. apply bindR_ext. intros s'.
    rewrite IH. by replace (S i + n)%nat with (i + S n)%nat by lia.
Qed.

End Replay.

(** X2. Within the log, [computeStateAt] is [applyAction] folded over the
    first [step] actions, starting from the initial snapshot. *)
Theorem computeStateAt_folds_the_prefix (json : Json.t) (step : nat) :
  (step <= length (Json.actions json))%nat ->
  computeStateAt json step =
    applyAll (buildInitialState json) (take step (Json.actions json)).
Proof.
  intros H. unfold computeStateAt. by rewrite replayFrom_applyAll.
Qed.

Lemma computeStateAt_folds_the_prefix_witness :
  computeStateAt Sample.round 5 =
    applyAll (buildInitialState Sample.round) (take 5 (Json.actions Sample.round)).
Proof.
  apply (computeStateAt_folds_the_prefix Sample.round 5). vm_compute. lia.
Defined.

(** X3. Past the end of the log [computeStateAt] throws, whatever the
    round: the loop reads [json.actions[i]] for [i] up to [step - 1]. *)
Theorem computeStateAt_past_the_log (json : Json.t) (step : nat) :
  (length (Json.actions json) < step)%nat ->
  computeStateAt json step = inl TypeError.
Proof.
  intros H. unfold computeStateAt. apply replayFrom_past_the_end; lia.
Qed.

Lemma computeStateAt_past_the_log_witness :
  computeStateAt Sample.round 12 = inl TypeError.
Proof.
  apply (computeStateAt_past_the_log Sample.round 12). vm_compute. lia.
Defined.

(** X4. One step further in the log is one more [applyAction]: the
    snapshot at step [k + 1] is the action of index [k] applied to the
    snapshot at step [k], and throws when either does. *)
Theorem computeStateAt_next_step (json : Json.t) (k : nat) (a : Action.t) :
  Json.actions json !! k = Some a ->
  computeStateAt json (S k) =
    bindR (computeStateAt json k) (fun s => applyAction s a).
Proof.
  intros H. unfold computeStateAt. rewrite replayFrom_snoc. simpl. by rewrite H.
Qed.

Lemma computeStateAt_next_step_witness :
  computeStateAt Sample.round 7 =
    bindR (computeStateAt Sample.round 6) (fun s => applyAction s (Sample.play 3 "7H")).
Proof.
  apply (computeStateAt_next_step Sample.round 6 (Sample.play 3 "7H")). reflexivity.
Defined.

(** ** What a replay never changes *)

Lemma applyAction_hands_dom (s s' : State) (a : Action.t) :
  applyAction s a = inr s' -> dom (hands s') = dom (hands s).
Proof.
  intros H. destruct (clearTrick_frame s) as (_ & _ & _ & _ & Eh & _).
  destruct (applyAction_inv s a s' H)
    as [(_ & _ & ->) | [(pl & _ & _ & ->) | (pl & p & h & _ & _ & _ & Hh & ->)]];
    simpl; try by rewrite Eh.
  destruct (played_frame s p (Payload.card pl) h) as (_&_&_&_&_&_& -> & _).
  by apply dom_insert_lookup_L.
Qed.

(** X5. No action writes [dealer], [floorCard] or [tricksWon], and none
    adds or removes a hand: in every reachable snapshot they are what
    [buildInitialState] made them. *)
Theorem replay_keeps_the_deal (json : Json.t) (s : State) :
  reachable json s ->
  dealer s = Json.dealer (Json.meta (Json.initial json)) /\
  floorCard s = Json.floor_card (Json.bidding (Json.initial json)) /\
  tricksWon s = <[0 := 0]> (<[1 := 0]> (<[2 := 0]> (<[3 := 0]> ∅))) /\
  dom (hands s) = dom (Json.hands_5 (Json.bidding (Json.initial json))).
Proof.
  induction 1 as [| s a s' _ (IHd & IHf & IHw & IHh) H].
  - simpl. by rewrite dom_fmap_L.
  - rewrite (applyAction_hands_dom s s' a H), <- IHd, <- IHf, <- IHw.
    destruct (clearTrick_frame s) as (_ & Ed & _ & Ef & _ & Ew & _).
    destruct (applyAction_inv s a s' H)
      as [(_ & _ & ->) | [(pl & _ & _ & ->) | (pl & p & h & _ & _ & _ & _ & ->)]];
      simpl; try done.
    destruct (played_frame s p (Payload.card pl) h) as (_& -> & -> & -> & _).
    done.
Qed.

Lemma replay_keeps_the_deal_witness :
  dealer (Sample.at_step 8) = Json.dealer (Json.meta (Json.initial Sample.round)) /\
  floorCard (Sample.at_step 8)
    = Json.floor_card (Json.bidding (Json.initial Sample.round)) /\
  tricksWon (Sample.at_step 8) = <[0 := 0]> (<[1 := 0]> (<[2 := 0]> (<[3 := 0]> ∅))) /\
  dom (hands (Sample.at_step 8))
    = dom (Json.hands_5 (Json.bidding (Json.initial Sample.round))).
Proof.
  apply (replay_keeps_the_deal Sample.round (Sample.at_step 8)).
  apply (computeStateAt_reachable Sample.round 8). vm_compute. reflexivity.
Defined.

(** X6. Until a FINALIZE_CONTRACT has been applied the snapshot keeps the
    starting phase and has neither [mode] nor [trump]; from then on the
    phase is PLAYING. *)
Theorem contract_appears_with_playing (json : Json.t) (s : State) :
  reachable json s ->
  (phase s = Json.start_phase (Json.initial json) /\ mode s = None /\ trump s = None) \/
  phase s = "PLAYING".
Proof.
  induction 1 as [| s a s' _ IH H]; [by left |].
  destruct (clearTrick_frame s) as (Ep & _ & _ & _ & _ & _ & Em & Et).
  destruct (applyAction_inv s a s' H)
    as [(_ & _ & ->) | [(pl & _ & _ & ->) | (pl & p & h & _ & _ & _ & _ & ->)]].
  - by rewrite Ep, Em, Et.
  - by right.
  - destruct (played_frame s p (Payload.card pl) h) as (-> & _ & _ & _ & -> & -> & _).
    done.
Qed.

Lemma contract_appears_with_playing_witness :
  (phase (Sample.at_step 2) = Json.start_phase (Json.initial Sample.round) /\
   mode (Sample.at_step 2) = None /\ trump (Sample.at_step 2) = None) \/
  phase (Sample.at_step 2) = "PLAYING".
Proof.
  apply (contract_appears_with_playing Sample.round (Sample.at_step 2)).
  apply (computeStateAt_reachable Sample.round 2). vm_compute. reflexivity.
Defined.

(** X7. An action never adds a card to a hand. Only a PLAY_CARD touches a
    hand, and only its player's: that hand loses every copy of the card
    played and nothing else. *)
Theorem hands_only_shrink (s s' : State) (a : Action.t) :
  applyAction s a = inr s' ->
  (forall p h', hands s' !! p = Some h' ->
     exists h, hands s !! p = Some h /\ h' `sublist_of` h) /\
  (forall p, Action.type a <> "PLAY_CARD" \/ Action.player a <> Some p ->
     hands s' !! p = hands s !! p) /\
  (forall p pl c h h', Action.type a = "PLAY_CARD" -> Action.player a = Some p ->
     Action.payload a = Some pl -> Payload.card pl = Some c ->
     hands s !! p = Some h -> hands s' !! p = Some h' ->
     (c ∉ h') /\ (forall x, x <> c -> x ∈ h -> x ∈ h')).
Proof.
  intros H. destruct (clearTrick_frame s) as (_ & _ & _ & _ & Eh & _).
  destruct (applyAction_inv s a s' H)
    as [(Hf & Hp & ->) | [(pl & Hf & _ & ->) | (pl & p & h & Hp & Hpl & Hpp & Hh & ->)]].
  - rewrite Eh. split; [by eauto |]. split; [done |]. intros; congruence.
  - simpl. rewrite Eh. split; [by eauto |]. split; [done |].
    intros ? ? ? ? ? Hp. by rewrite Hf in Hp.
  - destruct (played_frame s p (Payload.card pl) h) as (_&_&_&_&_&_& -> & _).
    split; [| split].
    + intros q h' Hq. destruct (decide (p = q)) as [<-|Hne].
      * rewrite lookup_insert_eq in Hq. injection Hq as <-.
        exists h. split; [done | apply sublist_filter].
      * rewrite lookup_insert_ne in Hq by done. by exists h'.
    + intros q [? | Hq]; [done |].
      rewrite lookup_insert_ne; [done | congruence].
    + intros q pl' c h0 h' _ Hq Hpl' Hc Hh0 Hh'.
      assert (q = p) as -> by congruence. assert (pl' = pl) as -> by congruence.
      assert (h0 = h) as -> by congruence.
      rewrite lookup_insert_eq in Hh'. injection Hh' as <-. rewrite Hc.
      unfold withoutCard. split.
      * rewrite list_elem_of_filter. by intros [Hne _].
      * intros x Hx Hin. apply list_elem_of_filter. split; [congruence | done].
Qed.

Lemma hands_only_shrink_witness :
  (forall p h', hands (Sample.at_step 4) !! p = Some h' ->
     exists h, hands (Sample.at_step 3) !! p = Some h /\ h' `sublist_of` h) /\
  (forall p, Action.type (Sample.play 0 "AS") <> "PLAY_CARD" \/
             Action.player (Sample.play 0 "AS") <> Some p ->
     hands (Sample.at_step 4) !! p = hands (Sample.at_step 3) !! p) /\
  (forall p pl c h h', Action.type (Sample.play 0 "AS") = "PLAY_CARD" ->
     Action.player (Sample.play 0 "AS") = Some p ->
     Action.payload (Sample.play 0 "AS") = Some pl -> Payload.card pl = Some c ->
     hands (Sample.at_step 3) !! p = Some h -> hands (Sample.at_step 4) !! p = Some h' ->
     (c ∉ h') /\ (forall x, x <> c -> x ∈ h -> x ∈ h')).
Proof.
  apply (hands_only_shrink (Sample.at_step 3) (Sample.at_step 4) (Sample.play 0 "AS")).
  vm_compute. reflexivity.
Defined.

(** * The playback controls *)

Section ControlsFacts.

Variable maxStep : Z.

Implicit Types (c : Controls.t) (e : Controls.Event) (events : list Controls.Event).

Lemma run_cons c e events :
  Controls.run maxStep c (e :: events) =
    (fst (Controls.run maxStep (fst (Controls.handle maxStep c e)) events),
     snd (Controls.handle maxStep c e)
       ++ snd (Controls.run maxStep (fst (Controls.handle maxStep c e)) events)).
Proof.
  simpl. destruct (Controls.handle maxStep c e) as [c1 out1]. simpl.
  by destruct (Controls.run maxStep c1 events) as [c2 out2].
Qed.

Lemma run_app c events1 events2 :
  Controls.run maxStep c (events1 ++ events2) =
    (fst (Controls.run maxStep (fst (Controls.run maxStep c events1)) events2),
     snd (Controls.run maxStep c events1)
       ++ snd (Controls.run maxStep (fst (Controls.run maxStep c events1)) events2)).
Proof.
  revert c. induction events1 as [|e events1 IH]; intros c.
  - simpl. by destruct (Controls.run maxStep c events2).
  - rewrite <- app_comm_cons, !run_cons, IH. simpl. by rewrite app_assoc.
Qed.

Lemma setStep_in_range s c :
  0 <= maxStep ->
  0 <= Controls.step (fst (Controls.setStep maxStep s c)) <= maxStep /\
  Forall (fun k => 0 <= k <= maxStep) (snd (Controls.setStep maxStep s c)).
Proof.
  intros H. simpl. split; [lia |]. apply Forall_singleton. lia.
Qed.

Lemma handle_in_range c e :
  0 <= maxStep -> 0 <= Controls.step c <= maxStep ->
  0 <= Controls.step (fst (Controls.handle maxStep c e)) <= maxStep /\
  Forall (fun k => 0 <= k <= maxStep) (snd (Controls.handle maxStep c e)).
Proof.
  intros H Hc. destruct e; unfold Controls.handle; try by apply setStep_in_range.
  - by destruct (Controls.playing c).
  - simpl. by destruct (Controls.playing c).
  - destruct (Controls.ticking c); [| done].
    destruct (maxStep <=? Controls.step c)%Z; [done | by apply setStep_in_range].
Qed.

Lemma run_in_range events : forall c,
  0 <= maxStep -> 0 <= Controls.step c <= maxStep ->
  0 <= Controls.step (fst (Controls.run maxStep c events)) <= maxStep /\
  Forall (fun k => 0 <= k <= maxStep) (snd (Controls.run maxStep c events)).
Proof.
  induction events as [|e events' IH]; intros c H Hc; [by split |].
  rewrite run_cons. simpl.
  destruct (handle_in_range c e H Hc) as [Hc1 Hout1].
  destruct (IH _ H Hc1) as [Hc2 Hout2]. split; [done | by apply Forall_app].
Qed.

Lemma numberOr1_nonzero (value : option Q) : ~ (Controls.numberOr1 value == 0)%Q.
Proof.
  unfold Controls.numberOr1. destruct value as [q|]; [| done].
  destruct (Qeq_bool q 0) eqn:E; [done |]. by apply Qeq_bool_neq.
Qed.

Lemma handle_steady c e : steady c -> steady (fst (Controls.handle maxStep c e)).
Proof.
  intros [Hp Hs]. destruct e; simpl; try (by split).
  - destruct (Controls.playing c); by split.
  - destruct (Controls.playing c) eqn:E; simpl; (split; [| apply numberOr1_nonzero]);
      simpl; congruence.
  - destruct (Controls.ticking c) eqn:E; [| split; simpl; congruence].
    destruct (maxStep <=? Controls.step c)%Z; split; simpl; congruence.
Qed.

End ControlsFacts.

(** X8. Whatever the user does, the step of the controls stays within
    [0, maxStep], and so does every step passed to [onStepChange]; a step
    asked for within the range is taken as it is. *)
Theorem controls_step_in_range (maxStep : Z) (speedSelect : option (option Q))
    (events : list Controls.Event) :
  0 <= maxStep ->
  0 <= Controls.step (fst (Controls.run maxStep (Controls.init speedSelect) events))
    <= maxStep /\
  Forall (fun k => 0 <= k <= maxStep)
    (snd (Controls.run maxStep (Controls.init speedSelect) events)) /\
  (forall c s, 0 <= s <= maxStep ->
     Controls.step (fst (Controls.setStep maxStep s c)) = s /\
     snd (Controls.setStep maxStep s c) = [s]).
Proof.
  intros H.
  assert (forall c, 0 <= Controls.step c <= maxStep ->
            0 <= Controls.step (fst (Controls.run maxStep c events)) <= maxStep /\
            Forall (fun k => 0 <= k <= maxStep) (snd (Controls.run maxStep c events)))
    as Hrun.
  { induction events as [|e events' IH]; intros c Hc; [by split |].
    rewrite run_cons. simpl.
    destruct (handle_in_range maxStep c e H Hc) as [Hc1 Hout1].
    destruct (IH _ Hc1) as [Hc2 Hout2]. split; [done | by apply Forall_app]. }
  destruct (Hrun (Controls.init speedSelect)) as [? ?]; [simpl; lia |].
  split; [done |]. split; [done |].
  intros c s Hs. simpl. split; [lia | f_equal; lia].
Qed.

Lemma controls_step_in_range_witness :
  0 <= Controls.step (fst (Controls.run 8 (Controls.init None)
         [Controls.Prev; Controls.Slider 20; Controls.Next; Controls.SetStep (-3)]))
    <= 8 /\
  Forall (fun k => 0 <= k <= 8)
    (snd (Controls.run 8 (Controls.init None)
            [Controls.Prev; Controls.Slider 20; Controls.Next; Controls.SetStep (-3)])) /\
  (forall c s, 0 <= s <= 8 ->
     Controls.step (fst (Controls.setStep 8 s c)) = s /\
     snd (Controls.setStep 8 s c) = [s]).
Proof.
  apply (controls_step_in_range 8 None
           [Controls.Prev; Controls.Slider 20; Controls.Next; Controls.SetStep (-3)]).
  lia.
Defined.

(** X9. Whatever the user does, [playing] is true exactly while an
    interval is scheduled, and [speed] is never 0: [Number(value) || 1]
    puts 1 in the place of 0 and of a value that is no number. *)
Theorem controls_play_flag_follows_timer (maxStep : Z)
    (speedSelect : option (option Q)) (events : list Controls.Event) :
  Controls.playing (fst (Controls.run maxStep (Controls.init speedSelect) events))
    = Controls.ticking (fst (Controls.run maxStep (Controls.init speedSelect) events)) /\
  (Qeq_bool
     (Controls.speed (fst (Controls.run maxStep (Controls.init speedSelect) events))) 0
   = false).
Proof.
  assert (forall c, steady c -> steady (fst (Controls.run maxStep c events))) as Hrun.
  { induction events as [|e events' IH]; intros c Hc; [done |].
    rewrite run_cons. simpl. by apply IH, handle_steady. }
  destruct (Hrun (Controls.init speedSelect)) as [Hp Hs].
  { split; [done |]. simpl. destruct speedSelect; [apply numberOr1_nonzero | done]. }
  split; [done |].
  destruct (Qeq_bool _ 0) eqn:E; [| done]. by apply Qeq_bool_iff in E.
Qed.

Lemma ticks_run_on (maxStep : Z) (n : nat) : forall c : Controls.t,
  Controls.ticking c = true ->
  Controls.step c + Z.of_nat n <= maxStep -> 0 <= Controls.step c ->
  Controls.run maxStep c (replicate n Controls.Tick) =
    (Controls.set_step (Controls.step c + Z.of_nat n) c,
     seqZ (Controls.step c + 1) (Z.of_nat n)).
Proof.
  induction n as [|n IH]; intros c Ht Hle H0.
  - simpl. rewrite Z.add_0_r. by destruct c.
  - change (replicate (S n) Controls.Tick)
      with (Controls.Tick :: replicate n Controls.Tick).
    rewrite run_cons. unfold Controls.handle. rewrite Ht.
    destruct (maxStep <=? Controls.step c)%Z eqn:E; [lia |].
    unfold Controls.setStep. cbn [fst snd].
    replace (0 `max` (maxStep `min` (Controls.step c + 1))) with (Controls.step c + 1)
      by lia.
    rewrite IH by (simpl; (done || lia)). simpl. f_equal.
    + unfold Controls.set_step. simpl. f_equal. lia.
    + rewrite (seqZ_cons (Controls.step c + 1) (Z.of_nat (S n))) by lia.
      do 2 f_equal; lia.
Qed.

(** X10. Playback runs to the end of the log and stops there: from a step
    within the range, with the interval scheduled, the ticks report every
    following step up to [maxStep], one by one; the tick after that clears
    the interval and [playing] and reports nothing. *)
Theorem autoplay_runs_to_the_end (maxStep : Z) (c : Controls.t) :
  0 <= Controls.step c <= maxStep -> Controls.ticking c = true ->
  Controls.run maxStep c
    (replicate (Z.to_nat (maxStep - Controls.step c)) Controls.Tick) =
    (Controls.set_step maxStep c,
     seqZ (Controls.step c + 1) (maxStep - Controls.step c)) /\
  Controls.handle maxStep (Controls.set_step maxStep c) Controls.Tick =
    (Controls.set_playing false (Controls.set_ticking false (Controls.set_step maxStep c)),
     []).
Proof.
  intros Hc Ht. split.
  - rewrite ticks_run_on by (done || lia).
    rewrite Z2Nat.id by lia. do 2 f_equal. lia.
  - unfold Controls.handle. simpl. rewrite Ht. by rewrite Z.leb_refl.
Qed.

Lemma autoplay_runs_to_the_end_witness :
  Controls.run 8 (Controls.mk 5 true true 1)
    (replicate (Z.to_nat (8 - 5)) Controls.Tick) =
    (Controls.set_step 8 (Controls.mk 5 true true 1), seqZ (5 + 1) (8 - 5)) /\
  Controls.handle 8 (Controls.set_step 8 (Controls.mk 5 true true 1)) Controls.Tick =
    (Controls.set_playing false
       (Controls.set_ticking false (Controls.set_step 8 (Controls.mk 5 true true 1))),
     []).
Proof.
  apply (autoplay_runs_to_the_end 8 (Controls.mk 5 true true 1)); [simpl; lia | reflexivity].
Defined.

(** * Seats, hands and trick slots *)

Section Seats.

Lemma small_cases (p : Z) : 0 <= p < 4 -> p = 0 \/ p = 1 \/ p = 2 \/ p = 3.
Proof. lia. Qed.

Lemma getSeatMap_slots_apart (pov : Z) : 0 <= pov < 4 -> slots_apart (getSeatMap pov).
Proof.
  intros H. unfold slots_apart.
  destruct (small_cases pov H) as [-> | [-> | [-> | ->]]];
    eapply bool_decide_unpack; vm_compute; exact I.
Qed.

Lemma getSeatMap_seated (pov p : Z) :
  0 <= pov < 4 -> 0 <= p < 4 ->
  exists seat, SeatMap.byPlayer (getSeatMap pov) !! p = Some seat /\
    seat ∈ seats /\ 0 <= Seat.slotIndex seat < 4 /\
    SeatMap.bySeat (getSeatMap pov) !! Seat.handId seat = Some p.
Proof.
  intros Hpov Hp.
  destruct (small_cases pov Hpov) as [-> | [-> | [-> | ->]]];
    destruct (small_cases p Hp) as [-> | [-> | [-> | ->]]];
    eexists; (split; [vm_compute; reflexivity |]);
    (split; [unfold seats; solve [repeat constructor] |]);
    (split; [simpl; lia | vm_compute; reflexivity]).
Qed.

End Seats.

(** X11. For a point of view among the four players, [getSeatMap] seats
    the point of view at the bottom (hand-0, slot 0) and every player at
    one of the four seats; [bySeat] leads from the hand element of a seat
    back to its player; and no two players share a trick slot. *)
Theorem seat_map_round_trip (pov : Z) :
  0 <= pov < 4 ->
  SeatMap.byPlayer (getSeatMap pov) !! pov = Some (Seat.mk "hand-0" 0 "bottom") /\
  (forall p, 0 <= p < 4 ->
     exists seat, SeatMap.byPlayer (getSeatMap pov) !! p = Some seat /\
       seat ∈ seats /\
       SeatMap.bySeat (getSeatMap pov) !! Seat.handId seat = Some p) /\
  (forall p q sp sq,
     SeatMap.byPlayer (getSeatMap pov) !! p = Some sp ->
     SeatMap.byPlayer (getSeatMap pov) !! q = Some sq ->
     Seat.slotIndex sp = Seat.slotIndex sq -> p = q).
Proof.
  intros H. split; [| split].
  - destruct (small_cases pov H) as [-> | [-> | [-> | ->]]]; vm_compute; reflexivity.
  - intros p Hp. destruct (getSeatMap_seated pov p H Hp) as (seat & ? & ? & _ & ?).
    by exists seat.
  - intros p q sp sq Hp Hq.
    exact (getSeatMap_slots_apart pov H p sp Hp q sq Hq).
Qed.

Lemma seat_map_round_trip_witness :
  SeatMap.byPlayer (getSeatMap 2) !! 2 = Some (Seat.mk "hand-0" 0 "bottom") /\
  (forall p, 0 <= p < 4 ->
     exists seat, SeatMap.byPlayer (getSeatMap 2) !! p = Some seat /\
       seat ∈ seats /\
       SeatMap.bySeat (getSeatMap 2) !! Seat.handId seat = Some p) /\
  (forall p q sp sq,
     SeatMap.byPlayer (getSeatMap 2) !! p = Some sp ->
     SeatMap.byPlayer (getSeatMap 2) !! q = Some sq ->
     Seat.slotIndex sp = Seat.slotIndex sq -> p = q).
Proof. apply (seat_map_round_trip 2). lia. Defined.

Section TrickSlots.


End TrickSlots.



Section Hands.


End Hands.



(** * The timeline and the reducer *)

Section Timeline.

Variable label : Action.t -> string.

Implicit Types (s : State) (a : Action.t) (actions : list Action.t).

Lemma winner_class (player : option Z) (contract winner : bool) :
  "trick-winner" ∈
    (["timeline-row"]
       ++ match player with
          | Some p => ["player-" +:+ pretty p]
          | None => []
          end
       ++ (if contract then ["contract"] else [])
       ++ (if winner then ["trick-winner"] else []))
  <-> winner = true.
Proof.
  rewrite !elem_of_app, list_elem_of_singleton.
  split.
  - intros [H | [H | [H | H]]]; [done | | |].
    + destruct player; [| by apply elem_of_nil in H].
      apply list_elem_of_singleton in H. simpl in H. discriminate.
    + destruct contract; [| by apply elem_of_nil in H].
      apply list_elem_of_singleton in H. discriminate.
    + destruct winner; [done | by apply elem_of_nil in H].
  - intros ->. do 3 right. by apply list_elem_of_singleton.
Qed.

Lemma rowsFrom_cons a rest i b k :
  rowsFrom label (a :: rest) i b k =
    let contract := bool_decide (Action.type a = "FINALIZE_CONTRACT") in
    let inPlaying := if contract then true else b in
    let playsInPhase := if contract then 0%nat else k in
    let counted := inPlaying && bool_decide (Action.type a = "PLAY_CARD") in
    let winner :=
      counted && (0 <? playsInPhase)%nat && (playsInPhase mod 4 =? 0)%nat in
    Row.mk
      (["timeline-row"]
         ++ match Action.player a with
            | Some p => ["player-" +:+ pretty p]
            | None => []
            end
         ++ (if contract then ["contract"] else [])
         ++ (if winner then ["trick-winner"] else []))
      ("[" +:+ pretty i +:+ "]")
      (label a)
      (i + 1)
    :: rowsFrom label rest (S i) inPlaying
         (if counted then (playsInPhase + 1)%nat else playsInPhase).
Proof. reflexivity. Qed.

Lemma rowsFrom_length actions : forall i b k,
  length (rowsFrom label actions i b k) = length actions.
Proof. induction actions as [|a rest IH]; intros i b k; simpl; [done | by rewrite IH]. Qed.

(** The click handler of row [j] asks for the step after its action. *)
Lemma rowsFrom_select actions : forall i b k j r,
  rowsFrom label actions i b k !! j = Some r -> Row.select r = (i + j + 1)%nat.
Proof.
  induction actions as [|a rest IH]; intros i b k j r Hr; [done |].
  rewrite rowsFrom_cons in Hr. cbv zeta in Hr. destruct j as [|j].
  - injection Hr as <-. simpl. lia.
  - change ((?x :: ?l) !! S j) with (l !! j) in Hr.
    rewrite (IH _ _ _ _ _ Hr). lia.
Qed.

(** Before the contract no row is marked, and the two variables stay as
    they are at the start. *)
Lemma rowsFrom_bidding bidding rest : forall i,
  Forall (fun a => Action.type a <> "FINALIZE_CONTRACT") bidding ->
  rowsFrom label (bidding ++ rest) i false 0 =
    rowsFrom label bidding i false 0 ++ rowsFrom label rest (i + length bidding) false 0 /\
  Forall (fun r => ~ marksWinner r) (rowsFrom label bidding i false 0).
Proof.
  induction bidding as [|a bidding IH]; intros i Hb.
  - simpl. rewrite Nat.add_0_r. split; [done | constructor].
  - inversion Hb as [|? ? Ha Hrest]; subst.
    destruct (IH (S i) Hrest) as [IH1 IH2].
    simpl. rewrite bool_decide_eq_false_2 by done. simpl.
    rewrite IH1. replace (S i + length bidding)%nat with (i + S (length bidding))%nat by lia.
    split; [done |]. constructor; [| done].
    unfold marksWinner. simpl Row.classes.
    rewrite (winner_class (Action.player a) false false). done.
Qed.

Lemma rowsFrom_finalize fin plays i b k :
  Action.type fin = "FINALIZE_CONTRACT" ->
  exists row, ~ marksWinner row /\
    rowsFrom label (fin :: plays) i b k = row :: rowsFrom label plays (S i) true 0.
Proof.
  intros Hf. simpl. rewrite bool_decide_eq_true_2 by done.
  rewrite (bool_decide_eq_false_2 (Action.type fin = "PLAY_CARD")) by (by rewrite Hf).
  simpl. eexists. split; [| reflexivity].
  unfold marksWinner. simpl Row.classes.
  rewrite (winner_class (Action.player fin) true false). done.
Qed.

(** In the playing phase the row of the card number [k] (from 0) is marked
    when [k] is 4, 8, 12, ... *)
Lemma rowsFrom_plays plays : forall i k j r,
  Forall (fun a => Action.type a = "PLAY_CARD") plays ->
  rowsFrom label plays i true k !! j = Some r ->
  marksWinner r <-> (0 < k + j)%nat /\ ((k + j) mod 4 = 0)%nat.
Proof.
  induction plays as [|a plays IH]; intros i k j r Hp Hr; [done |].
  inversion Hp as [|? ? Ha Hrest]; subst.
  rewrite rowsFrom_cons in Hr. cbv zeta in Hr.
  rewrite (bool_decide_eq_false_2 (Action.type a = "FINALIZE_CONTRACT")) in Hr
    by (by rewrite Ha).
  rewrite (bool_decide_eq_true_2 (Action.type a = "PLAY_CARD")) in Hr by done.
  cbv beta iota in Hr. destruct j as [|j].
  - injection Hr as <-. unfold marksWinner, Row.classes.
    etrans; [exact (winner_class (Action.player a) false _) |].
    rewrite Nat.add_0_r, !andb_true_iff, Nat.ltb_lt, Nat.eqb_eq. tauto.
  - change ((?x :: ?l) !! S j) with (l !! j) in Hr.
    rewrite (IH (S i) (k + 1)%nat j r Hrest Hr).
    by replace (k + 1 + j)%nat with (k + S j)%nat by lia.
Qed.

End Timeline.

Section PlayCount.

Implicit Types (s : State) (a : Action.t) (acts : list Action.t).

Lemma after_plays_init json : after_plays 0 (buildInitialState json).
Proof. split; simpl; [split; [done | lia] | done]. Qed.

(** While no card is played the trick stays empty. *)
Lemma after_plays_idle s a s' :
  Action.type a <> "PLAY_CARD" -> applyAction s a = inr s' ->
  after_plays 0 s -> after_plays 0 s'.
Proof.
  intros Ha H [Htc Hlen].
  assert (trickComplete s = false) as Hfalse.
  { destruct (trickComplete s); [| done]. destruct Htc as [Htc _]. specialize (Htc eq_refl). lia. }
  assert (clearTrick s = s) as Hclear by (unfold clearTrick; by rewrite Hfalse).
  destruct (applyAction_inv s a s' H) as
    [(_ & _ & ->) | [(pl & _ & _ & ->) | (pl & p & h & ? & _)]]; [| | done];
    rewrite Hclear; split; simpl; by rewrite ?Hfalse in *.
Qed.

Lemma trickComplete_played s p card h :
  trickComplete (played s p card h) = bool_decide (length (trick (clearTrick s)) = 3%nat).
Proof.
  unfold played, playInto. simpl. rewrite length_app. simpl.
  case_decide; case_bool_decide; simpl; rewrite ?trickComplete_clearTrick;
    try done; lia.
Qed.

Lemma after_plays_play k s a s' :
  Action.type a = "PLAY_CARD" -> applyAction s a = inr s' ->
  after_plays k s -> after_plays (S k) s'.
Proof.
  intros Ha H [Htc Hlen].
  destruct (applyAction_play_inv s a s' Ha H) as (pl & p & h & _ & _ & _ & ->).
  destruct (played_frame s p (Payload.card pl) h) as (_ & _ & _ & _ & _ & _ & _ & Htrick).
  unfold after_plays.
  rewrite trickComplete_played, Htrick, length_app, trick_clearTrick.
  cbn [length Nat.add].
  destruct (trickComplete s) eqn:E.
  - destruct Htc as [Htc _]. specialize (Htc eq_refl). cbn [length Nat.add].
    rewrite bool_decide_eq_false_2 by done.
    split; [split; [done | lia] | lia].
  - case_bool_decide as Hthree.
    + split; [split; [lia | done] | lia].
    + split; [split; [done | lia] | lia].
Qed.

Lemma applyAll_app s acts1 acts2 :
  applyAll s (acts1 ++ acts2) = bindR (applyAll s acts1) (fun s' => applyAll s' acts2).
Proof.
  revert s. induction acts1 as [|a acts1 IH]; intros s; simpl; [done |].
  rewrite bindR_assoc. apply bindR_ext. intros s'. apply IH.
Qed.

Lemma applyAll_idle acts : forall s s',
  Forall (fun a => Action.type a <> "PLAY_CARD") acts ->
  applyAll s acts = inr s' -> after_plays 0 s -> after_plays 0 s'.
Proof.
  induction acts as [|a acts IH]; intros s s' Hf H Hs; simpl in H.
  - by injection H as <-.
  - inversion Hf as [|? ? Ha Hrest]; subst.
    destruct (applyAction s a) as [|s1] eqn:E; [done |]. simpl in H.
    eapply IH; [done | done |]. eapply after_plays_idle; done.
Qed.

Lemma applyAll_plays acts : forall k s s',
  Forall (fun a => Action.type a = "PLAY_CARD") acts ->
  applyAll s acts = inr s' -> after_plays k s -> after_plays (k + length acts) s'.
Proof.
  induction acts as [|a acts IH]; intros k s s' Hf H Hs; simpl in H.
  - injection H as <-. simpl. by rewrite Nat.add_0_r.
  - inversion Hf as [|? ? Ha Hrest]; subst.
    destruct (applyAction s a) as [|s1] eqn:E; [done |]. simpl in H.
    simpl length. replace (k + S (length acts))%nat with (S k + length acts)%nat by lia.
    eapply IH; [done | done |]. eapply after_plays_play; done.
Qed.

End PlayCount.

(** X14. In a log made of bidding actions, one FINALIZE_CONTRACT and then
    only PLAY_CARD actions, [buildTimeline] gives the row of action [i] the
    class [trick-winner] exactly when the snapshot [computeStateAt] returns
    for step [i], the one before that action, has a complete trick: the
    marked rows are the cards that open the next trick. *)
Theorem trick_winner_rows_follow_the_reducer (label : Action.t -> string) (json : Json.t)
    (bidding plays : list Action.t) (fin : Action.t) (i : nat) (r : Row.t) (s : State) :
  Json.actions json = bidding ++ fin :: plays ->
  Forall (fun a => Action.type a <> "FINALIZE_CONTRACT" /\ Action.type a <> "PLAY_CARD")
    bidding ->
  Action.type fin = "FINALIZE_CONTRACT" ->
  Forall (fun a => Action.type a = "PLAY_CARD") plays ->
  buildTimeline label (Json.actions json) !! i = Some r ->
  computeStateAt json i = inr s ->
  "trick-winner" ∈ Row.classes r <-> trickComplete s = true.
Proof.
  intros Hacts Hb Hf Hp Hr Hs. change (marksWinner r <-> trickComplete s = true).
  assert (Forall (fun a => Action.type a <> "FINALIZE_CONTRACT") bidding) as Hb1.
  { eapply Forall_impl; [exact Hb |]. by intros a [? _]. }
  assert (Forall (fun a => Action.type a <> "PLAY_CARD") bidding) as Hb2.
  { eapply Forall_impl; [exact Hb |]. by intros a [_ ?]. }
  assert (i < length (Json.actions json))%nat as Hi.
  { apply lookup_lt_Some in Hr. unfold buildTimeline in Hr.
    by rewrite rowsFrom_length in Hr. }
  unfold computeStateAt in Hs. rewrite replayFrom_applyAll in Hs by lia.
  change (drop 0 (Json.actions json)) with (Json.actions json) in Hs.
  unfold buildTimeline in Hr. rewrite Hacts in Hr, Hs, Hi.
  rewrite length_app in Hi. simpl in Hi.
  destruct (rowsFrom_bidding label bidding (fin :: plays) 0 Hb1) as [Heq Hnone].
  destruct (rowsFrom_finalize label fin plays (0 + length bidding) false 0 Hf)
    as (row & Hrow & Hfin).
  rewrite Heq, Hfin in Hr.
  pose proof (rowsFrom_length label bidding 0 false 0) as Hlen.
  pose proof (after_plays_init json) as Hinit.
  destruct (decide (i <= length bidding)%nat) as [Hle|Hgt].
  - (* the rows of the bidding and of the contract *)
    rewrite take_app_le in Hs by done.
    pose proof (applyAll_idle (take i bidding) _ _ (Forall_take _ i _ Hb2) Hs Hinit)
      as [[Htc _] _].
    assert (~ marksWinner r) as Hno.
    { destruct (decide (i < length bidding)%nat) as [Hlt|Hge].
      - rewrite lookup_app_l in Hr by lia.
        rewrite Forall_lookup in Hnone. exact (Hnone i r Hr).
      - rewrite lookup_app_r in Hr by lia.
        replace (i - length (rowsFrom label bidding 0 false 0))%nat with 0%nat in Hr by lia.
        by injection Hr as <-. }
    split; [done |]. intros Htrue. apply Htc in Htrue. lia.
  - (* the rows of the cards *)
    rewrite lookup_app_r in Hr by lia. rewrite Hlen in Hr.
    destruct (i - length bidding)%nat as [|j] eqn:Hj; [lia |].
    change ((row :: ?l) !! S j) with (l !! j) in Hr.
    rewrite (rowsFrom_plays label plays _ 0 j r Hp Hr). simpl.
    rewrite take_app_ge in Hs by lia. rewrite Hj in Hs.
    rewrite applyAll_app in Hs.
    destruct (applyAll (buildInitialState json) bidding) as [|sb] eqn:Eb; [done |].
    pose proof (applyAll_idle bidding _ _ Hb2 Eb Hinit) as Hsb.
    simpl in Hs.
    destruct (applyAction sb fin) as [|sf] eqn:Ef; [done |]. simpl in Hs.
    assert (after_plays 0 sf) as Hsf.
    { eapply after_plays_idle; [| exact Ef | exact Hsb]. by rewrite Hf. }
    pose proof (applyAll_plays (take j plays) 0 sf s (Forall_take _ j _ Hp) Hs Hsf)
      as [Htc _].
    rewrite length_take_le in Htc by lia. exact (symmetry Htc).
Qed.

Lemma trick_winner_rows_follow_the_reducer_witness :
  "trick-winner" ∈ Row.classes
     (Row.mk ["timeline-row"; "player-0"; "trick-winner"] "[7]" "P0 PLAY 9H" 8)
  <-> trickComplete (Sample.at_step 7) = true.
Proof.
  apply (trick_winner_rows_follow_the_reducer (fun _ => "P0 PLAY 9H") Sample.round
           [Sample.pass 0; Sample.bid "BID_SUN" 1] (drop 3 (Json.actions Sample.round))
           (Sample.finalize "SUN" None 1) 7).
  - reflexivity.
  - repeat constructor; simpl; discriminate.
  - reflexivity.
  - repeat constructor.
  - vm_compute. reflexivity.
  - vm_compute. reflexivity.
Defined.

(** * The page *)

Section Page.

Implicit Types (json : Json.t) (g : Main.Globals) (v : Main.View).



End Page.



Section Toast.

Implicit Types (json : Json.t) (g : Main.Globals) (v : Main.View).

(** In a log that plays all its cards after everything else, the trick of
    the snapshot at step [n] is the one [n - length before] cards leave. *)
Lemma computeStateAt_counts_plays json (before plays : list Action.t) (n : nat) (s : State) :
  Json.actions json = before ++ plays ->
  Forall (fun a => Action.type a <> "PLAY_CARD") before ->
  Forall (fun a => Action.type a = "PLAY_CARD") plays ->
  computeStateAt json n = inr s ->
  (n <= length before + length plays)%nat /\ after_plays (n - length before) s.
Proof.
  intros Hacts Hb Hp Hs.
  assert (n <= length (Json.actions json))%nat as Hn.
  { destruct (decide (n <= length (Json.actions json))%nat) as [|Hgt]; [done |].
    unfold computeStateAt in Hs.
    rewrite replayFrom_past_the_end in Hs by lia. done. }
  unfold computeStateAt in Hs. rewrite replayFrom_applyAll in Hs by lia.
  change (drop 0 (Json.actions json)) with (Json.actions json) in Hs.
  rewrite Hacts in Hs, Hn. rewrite length_app in Hn. split; [done |].
  rewrite take_app, applyAll_app in Hs.
  destruct (applyAll (buildInitialState json) (take n before)) as [|sb] eqn:Eb; [done |].
  pose proof (applyAll_idle _ _ _ (Forall_take _ n _ Hb) Eb (after_plays_init json)) as Hsb.
  simpl in Hs.
  pose proof (applyAll_plays _ 0 sb s (Forall_take _ (n - length before) _ Hp) Hs Hsb)
    as Hend.
  rewrite length_take_le in Hend by lia. exact Hend.
Qed.

Lemma update_inv json g step v g' :
  Main.update json g step = (inr v, g') ->
  exists s0,
    computeStateAt json step = inr s0 /\
    trickComplete (Main.state v) = trickComplete s0 /\
    Main.lastAction v = (if (0 <? step)%nat then Json.actions json !! (step - 1)%nat else None) /\
    Main.highlighted v = (step - 1)%nat /\
    let nextAction := if (step <? length (Json.actions json))%nat
                      then Json.actions json !! step else None in
    let lastPopup := if (Z.of_nat step <? Main.lastPopupStep g)%Z
                     then (-1) else Main.lastPopupStep g in
    Main.toast v =
      if Main.isPlayCard (Main.lastAction v) && trickComplete s0
         && negb (bool_decide (Z.of_nat step = lastPopup))
      then Some (if Main.isPlayCard nextAction then nextAction ≫= Action.player
                 else Main.lastAction v ≫= Action.player)
      else None.
Proof.
  intros H. unfold Main.update in H.
  destruct (computeStateAt json step) as [|s0]; [by inversion H |].
  destruct (if (0 <? step)%nat then bindR _ _ else _) as [|ps]; [by inversion H |].
  exists s0. split; [done |].
  set (lastAction := if (0 <? step)%nat then Json.actions json !! (step - 1)%nat else None) in *.
  set (nextAction := if (step <? length (Json.actions json))%nat
                     then Json.actions json !! step else None) in *.
  set (drawn := match lastAction ≫= Action.player with
                | Some p => set_currentPlayer (Some p) s0
                | None => match nextAction ≫= Action.player with
                          | Some p => set_currentPlayer (Some p) s0
                          | None => s0
                          end
                end) in *.
  assert (trickComplete drawn = trickComplete s0) as Hdrawn.
  { unfold drawn. destruct (lastAction ≫= Action.player); [done |].
    by destruct (nextAction ≫= Action.player). }
  cbv zeta. destruct (Main.isPlayCard lastAction && trickComplete drawn && negb _) eqn:C in H;
    injection H as <- <-; cbn [Main.state Main.lastAction Main.highlighted Main.toast];
    rewrite Hdrawn in *; rewrite C; split_and!; try done; lia.
Qed.

End Toast.

(** X16. In a log that plays all its cards after everything else, a step
    reached from an earlier toast step shows the toast exactly when the
    number of cards played so far is 4, 8, 12, ...; the toast names the
    player of the next card, or, after the last card of the log, the
    player of that card. *)
Theorem toast_after_every_fourth_card (json : Json.t) (before plays : list Action.t)
    (g g' : Main.Globals) (j : nat) (v : Main.View) :
  Json.actions json = before ++ plays ->
  Forall (fun a => Action.type a <> "PLAY_CARD") before ->
  Forall (fun a => Action.type a = "PLAY_CARD") plays ->
  (Main.lastPopupStep g < Z.of_nat (length before + j))%Z ->
  Main.update json g (length before + j) = (inr v, g') ->
  Main.toast v =
    if (0 <? j)%nat && (j mod 4 =? 0)%nat
    then Some (match plays !! j with
               | Some a => Action.player a
               | None => plays !! (j - 1)%nat ≫= Action.player
               end)
    else None.
Proof.
  intros Hacts Hb Hp Hlps H.
  destruct (update_inv json g _ v g' H) as (s0 & Hs0 & _ & Hlast & _ & Htoast).
  cbv zeta in Htoast.
  destruct (computeStateAt_counts_plays json before plays _ s0 Hacts Hb Hp Hs0)
    as [Hj [Htc _]].
  replace (length before + j - length before)%nat with j in Htc by lia.
  rewrite (proj2 (Z.ltb_ge _ _)) in Htoast by lia.
  rewrite (bool_decide_eq_false_2 (Z.of_nat _ = _)) in Htoast by lia.
  rewrite andb_true_r in Htoast.
  rewrite Htoast, Hlast, Hacts. clear Htoast Hlast.
  destruct j as [|j].
  - (* no card yet: the last action, if any, is not a PLAY_CARD *)
    simpl. rewrite Nat.add_0_r.
    destruct (0 <? length before)%nat eqn:E; [| done].
    apply Nat.ltb_lt in E. rewrite lookup_app_l by lia.
    destruct (before !! (length before - 1)%nat) as [a|] eqn:Ea; [| done].
    rewrite Forall_lookup in Hb. specialize (Hb _ _ Ea).
    simpl. by rewrite bool_decide_eq_false_2.
  - rewrite (proj2 (Nat.ltb_lt _ _)) by lia.
    rewrite (lookup_app_r before plays (length before + S j - 1)) by lia.
    replace (length before + S j - 1 - length before)%nat with j by lia.
    replace (S j - 1)%nat with j by lia.
    destruct (plays !! j) as [a|] eqn:Ea; [| apply lookup_ge_None in Ea; lia].
    pose proof (proj1 (Forall_lookup _ _) Hp _ _ Ea) as Ha. simpl in Ha.
    cbn [Main.isPlayCard]. rewrite (bool_decide_eq_true_2 _ Ha). cbn [andb].
    assert (trickComplete s0 = (0 <? S j)%nat && (S j mod 4 =? 0)%nat) as ->.
    { destruct (trickComplete s0).
      - destruct Htc as [Htc _]. specialize (Htc eq_refl).
        symmetry. apply andb_true_iff. rewrite Nat.ltb_lt, Nat.eqb_eq. done.
      - symmetry. apply not_true_is_false. intros Hyes.
        apply andb_true_iff in Hyes. rewrite Nat.ltb_lt, Nat.eqb_eq in Hyes.
        destruct Htc as [_ Htc]. by specialize (Htc Hyes). }
    destruct ((0 <? S j)%nat && (S j mod 4 =? 0)%nat); [| done].
    f_equal. rewrite length_app.
    destruct (length before + S j <? length before + length plays)%nat eqn:E.
    + rewrite lookup_app_r by lia.
      replace (length before + S j - length before)%nat with (S j) by lia.
      destruct (plays !! S j) as [b|] eqn:Eb; [| apply lookup_ge_None in Eb;
        apply Nat.ltb_lt in E; lia].
      pose proof (proj1 (Forall_lookup _ _) Hp _ _ Eb) as Hb'. simpl in Hb'.
      cbn [Main.isPlayCard]. by rewrite (bool_decide_eq_true_2 _ Hb').
    + apply Nat.ltb_ge in E.
      rewrite (proj2 (lookup_ge_None plays (S j))) by lia. done.
Qed.

Lemma toast_after_every_fourth_card_witness :
  Main.toast (sample_page 7).1 = Some (Some 0).
Proof.
  apply (toast_after_every_fourth_card Sample.round
           (take 3 (Json.actions Sample.round)) (drop 3 (Json.actions Sample.round))
           Main.initial (sample_page 7).2 4).
  - reflexivity.
  - repeat constructor; simpl; discriminate.
  - repeat constructor.
  - simpl. lia.
  - vm_compute. reflexivity.
Defined.

(** X17. Clicking the row of action [i] asks for step [i + 1]; the controls
    report that very step when they were set up with the length of the
    log; and [update] then highlights row [i] and takes action [i] as the
    last action. Step 0 highlights row 0 as well. *)
Theorem clicking_a_row_highlights_it (label : Action.t -> string) (json : Json.t)
    (c : Controls.t) (i : nat) (r : Row.t) :
  buildTimeline label (Json.actions json) !! i = Some r ->
  Row.select r = (i + 1)%nat /\
  snd (Controls.setStep (Z.of_nat (length (Json.actions json))) (Z.of_nat (Row.select r)) c)
    = [Z.of_nat (i + 1)] /\
  (forall g v g',
     Main.update json g (i + 1) = (inr v, g') ->
     Main.highlighted v = i /\ Main.lastAction v = Json.actions json !! i) /\
  (forall g v g',
     Main.update json g 0 = (inr v, g') ->
     Main.highlighted v = 0%nat /\ Main.lastAction v = None).
Proof.
  intros Hr.
  assert (i < length (Json.actions json))%nat as Hi.
  { apply lookup_lt_Some in Hr. unfold buildTimeline in Hr.
    by rewrite rowsFrom_length in Hr. }
  assert (Row.select r = (i + 1)%nat) as Hsel.
  { unfold buildTimeline in Hr.
    rewrite (rowsFrom_select label (Json.actions json) 0 false 0 i r Hr). lia. }
  split_and!.
  - done.
  - rewrite Hsel. unfold Controls.setStep. simpl. f_equal. lia.
  - intros g v g' H.
    destruct (update_inv json g _ v g' H) as (_ & _ & _ & Hlast & Hhigh & _).
    rewrite Hhigh, Hlast. rewrite (proj2 (Nat.ltb_lt _ _)) by lia.
    replace (i + 1 - 1)%nat with i by lia. done.
  - intros g v g' H.
    destruct (update_inv json g _ v g' H) as (_ & _ & _ & Hlast & Hhigh & _).
    by rewrite Hhigh, Hlast.
Qed.

Lemma clicking_a_row_highlights_it_witness :
  Row.select (Row.mk ["timeline-row"; "contract"] "[2]" "CONTRACT FINALIZED: SUN (-)" 3)
    = (2 + 1)%nat /\
  snd (Controls.setStep (Z.of_nat (length (Json.actions Sample.round)))
         (Z.of_nat (Row.select
            (Row.mk ["timeline-row"; "contract"] "[2]" "CONTRACT FINALIZED: SUN (-)" 3)))
         (Controls.init None))
    = [Z.of_nat (2 + 1)] /\
  (forall g v g',
     Main.update Sample.round g (2 + 1) = (inr v, g') ->
     Main.highlighted v = 2%nat /\ Main.lastAction v = Json.actions Sample.round !! 2%nat) /\
  (forall g v g',
     Main.update Sample.round g 0 = (inr v, g') ->
     Main.highlighted v = 0%nat /\ Main.lastAction v = None).
Proof.
  apply (clicking_a_row_highlights_it (fun _ => "CONTRACT FINALIZED: SUN (-)") Sample.round
           (Controls.init None) 2).
  vm_compute. reflexivity.
Defined.

(** * Card faces *)

Section Faces.

(** The two slices [renderCardFace] takes make up the card. *)
Lemma card_slices (c : Card) : c <> "" -> rankRawOf c +:+ suitOf c = c.
Proof.
  induction c as [|x rest IH]; intros Hc; [done |].
  destruct rest as [|y rest]; [done |].
  change (String x (rankRawOf (String y rest) +:+ suitOf (String y rest))
          = String x (String y rest)).
  by rewrite IH.
Qed.

End Faces.

(** X18. Two cards that [renderCardFace] draws without exception, neither
    of them spelling its rank "10", get the same face exactly when they
    are the same card: the face tells the cards apart. The rank "10" is
    left out because that is how the face shows the rank "T". *)
Theorem faces_tell_cards_apart (c1 c2 : Card) (f1 f2 : Face) :
  rankRawOf c1 <> "10" -> rankRawOf c2 <> "10" ->
  renderCardFace (Some c1) = inr f1 -> renderCardFace (Some c2) = inr f2 ->
  f1 = f2 <-> c1 = c2.
Proof.
  intros Hr1 Hr2 H1 H2. split; [| intros <-; congruence].
  intros <-. unfold renderCardFace in H1, H2.
  destruct (decide (c1 = "")) as [-> | Hc1], (decide (c2 = "")) as [-> | Hc2];
    [done | | |].
  - destruct (hasWhiteSpace (suitOf c2)); [done |]. congruence.
  - destruct (hasWhiteSpace (suitOf c1)); [done |]. congruence.
  - destruct (hasWhiteSpace (suitOf c1)); [done |].
    destruct (hasWhiteSpace (suitOf c2)); [done |].
    rewrite <- H1 in H2. injection H2 as Hsuit Hrank _.
    rewrite <- (card_slices c1 Hc1), <- (card_slices c2 Hc2).
    f_equal; [| done].
    repeat case_decide; congruence.
Qed.

Lemma faces_tell_cards_apart_witness :
  Spans "suit-S" "10" Spade = Spans "suit-H" "7" Heart <-> "TS" = "7H".
Proof. apply (faces_tell_cards_apart "TS" "7H"); done. Defined.

(** X19. The page sets the controls up with the length of the log, so
    every step they pass to [update] lies within the log: there
    [computeStateAt] folds [applyAction] over a prefix of the log and never
    reads an action that is not there. *)
Theorem controls_stay_within_the_log (json : Json.t) (speedSelect : option (option Q))
    (events : list Controls.Event) :
  Forall (fun k => exists n : nat,
            k = Z.of_nat n /\ (n <= length (Json.actions json))%nat /\
            computeStateAt json n
              = applyAll (buildInitialState json) (take n (Json.actions json)))
    (snd (Controls.run (Z.of_nat (length (Json.actions json)))
            (Controls.init speedSelect) events)).
Proof.
  destruct (run_in_range (Z.of_nat (length (Json.actions json))) events
              (Controls.init speedSelect)) as [_ Hout]; [lia | simpl; lia |].
  eapply Forall_impl; [exact Hout |]. intros k Hk. simpl in Hk.
  exists (Z.to_nat k). split; [lia |]. split; [lia |].
  unfold computeStateAt. by rewrite replayFrom_applyAll by lia.
Qed.

(** * The marks on the trick *)

Section Marks.

Implicit Types (json : Json.t) (g : Main.Globals) (v : Main.View).

Lemma update_prev json g k v g' :
  Main.update json g (S k) = (inr v, g') ->
  exists ps s0,
    computeStateAt json k = inr ps /\ computeStateAt json (S k) = inr s0 /\
    Main.prevState v = Some ps /\ trick (Main.state v) = trick s0 /\
    Main.lastAction v = Json.actions json !! k.
Proof.
  intros H. unfold Main.update in H.
  destruct (computeStateAt json (S k)) as [|s0]; [by inversion H |].
  change (0 <? S k)%nat with true in H. cbv iota in H.
  replace (S k - 1)%nat with k in H by lia.
  destruct (computeStateAt json k) as [|ps]; [by inversion H |].
  exists ps, s0. cbn [bindR] in H.
  set (drawn := match Json.actions json !! k ≫= Action.player with
                | Some p => set_currentPlayer (Some p) s0
                | None => _
                end) in *.
  assert (trick drawn = trick s0) as Hdrawn.
  { unfold drawn. destruct (Json.actions json !! k ≫= Action.player); [done |].
    by destruct (_ ≫= Action.player). }
  destruct (Main.isPlayCard _ && trickComplete drawn && negb _) in H;
    by injection H as <- <-.
Qed.

End Marks.

(** X20. When the last action is a PLAY_CARD, the trick [update] hands to
    [render] ends with the card just played, and that card gets the class
    [last]; it gets the class [in-play] too, unless it opens a new trick
    after a completed one; and as long as no player has two cards in the
    trick, no other card gets the class [last]. *)
Theorem the_card_just_played_is_marked (json : Json.t) (g g' : Main.Globals) (k : nat)
    (a : Action.t) (v : Main.View) :
  Json.actions json !! k = Some a -> Action.type a = "PLAY_CARD" ->
  Main.update json g (S k) = (inr v, g') ->
  exists ps p card rest,
    Main.prevState v = Some ps /\ computeStateAt json k = inr ps /\
    Action.player a = Some p /\
    trick (Main.state v) = rest ++ [Entry.mk p card] /\
    isLast (Main.lastAction v) (Entry.mk p card) = true /\
    isInPlay (Main.lastAction v) (Main.prevState v) (trick (Main.state v)) (Entry.mk p card)
      = negb (trickComplete ps) /\
    (NoDup (Entry.player <$> trick (Main.state v)) ->
     Forall (fun e => isLast (Main.lastAction v) e = false) rest).
Proof.
  intros Ha Hplay H.
  destruct (update_prev json g k v g' H) as (ps & s0 & Hps & Hs0 & Hprev & Htrick & Hlast).
  unfold computeStateAt in Hs0. rewrite replayFrom_snoc in Hs0.
  fold (computeStateAt json k) in Hs0. rewrite Hps in Hs0. simpl in Hs0.
  rewrite Ha in Hs0.
  destruct (applyAction_play_inv ps a s0 Hplay Hs0) as (pl & p & h & Hpl & Hp & _ & ->).
  destruct (played_frame ps p (Payload.card pl) h) as (_ & _ & _ & _ & _ & _ & _ & Hplayed).
  rewrite Hplayed in Htrick.
  exists ps, p, (Payload.card pl), (trick (clearTrick ps)).
  assert (isLast (Some a) (Entry.mk p (Payload.card pl)) = true) as Hmark.
  { unfold isLast. rewrite Hpl, Hp. simpl.
    by rewrite !bool_decide_eq_true_2. }
  rewrite Hlast, Ha, Hprev, Htrick. split_and!; try done.
  - unfold isInPlay. rewrite Hmark, length_app, trick_clearTrick. simpl.
    destruct (reachable_trick_ok json ps (computeStateAt_reachable json k ps Hps))
      as [_ Hfour].
    destruct (trickComplete ps) eqn:E; simpl.
    + apply bool_decide_eq_false_2. destruct Hfour as [Hfour _].
      specialize (Hfour eq_refl). lia.
    + apply bool_decide_eq_true_2. lia.
  - intros Hnodup. rewrite fmap_app in Hnodup. simpl in Hnodup.
    apply NoDup_app in Hnodup as (_ & Hapart & _).
    apply Forall_forall. intros e He.
    unfold isLast. rewrite Hp.
    rewrite (bool_decide_eq_false_2 (Some p = Some (Entry.player e))).
    + by rewrite andb_false_r.
    + intros [= ->]. apply (Hapart (Entry.player e)).
      * apply list_elem_of_fmap. by exists e.
      * apply list_elem_of_singleton. done.
Qed.

Lemma the_card_just_played_is_marked_witness :
  exists ps p card rest,
    Main.prevState (sample_page 8).1 = Some ps /\
    computeStateAt Sample.round 7 = inr ps /\
    Action.player (Sample.play 0 "9H") = Some p /\
    trick (Main.state (sample_page 8).1) = rest ++ [Entry.mk p card] /\
    isLast (Main.lastAction (sample_page 8).1) (Entry.mk p card) = true /\
    isInPlay (Main.lastAction (sample_page 8).1) (Main.prevState (sample_page 8).1)
      (trick (Main.state (sample_page 8).1)) (Entry.mk p card)
      = negb (trickComplete ps) /\
    (NoDup (Entry.player <$> trick (Main.state (sample_page 8).1)) ->
     Forall (fun e => isLast (Main.lastAction (sample_page 8).1) e = false) rest).
Proof.
  apply (the_card_just_played_is_marked Sample.round Main.initial (sample_page 8).2 7
           (Sample.play 0 "9H")).
  - reflexivity.
  - reflexivity.
  - vm_compute. reflexivity.
Defined.

(** * [update] on the heap and [update] on values *)

Section HeapPage.

Implicit Types (h : Heap.heap) (l : Heap.loc) (s : State) (o : Heap.Obj.t).

Lemma owns_mono n m h l s : owns n h l s -> (m <= n)%nat -> owns m h l s.
Proof.
  intros (o & refs & ? & ? & ? & ? & ? & ? & ? & ? & ?) Hle.
  exists o, refs. split_and!; try done; lia.
Qed.

(** The snapshot [applyAction] returns is made of objects that were not
    there before. *)
Lemma applyAction_fresh h l s a :
  holds h l s ->
  exists r h', Heap.applyAction l a h = (r, h') /\ h `prefix_of` h' /\
    match r, applyAction s a with
    | inr l', inr s' => owns (length h) h' l' s'
    | inl e, inl e' => e = e'
    | _, _ => False
    end.
Proof.
  intros Hs. unfold Heap.applyAction, applyAction.
  destruct (structuredClone_spec h l s Hs) as (l1 & h1 & Hrun1 & Ho1 & Htk1).
  destruct (clearTrick_owns _ h1 l1 s Ho1) as (h2 & Hrun2 & Ho2 & Htk2).
  destruct (finalizeContract_owns _ h2 l1 _ a Ho2) as (r3 & h3 & Hrun3 & Htk3 & Hres3).
  rewrite bind_run, Hrun1, bind_run, Hrun2, bind_run, Hrun3.
  assert (take (length h) h3 = h) as Htk by congruence.
  destruct (finalizeContract a (clearTrick s)) as [e|s3].
  { subst r3. exists (inl e), h3. split; [done |].
    split; [by apply take_length_prefix | done]. }
  destruct Hres3 as [-> Ho3].
  destruct (playCard_owns _ h3 l1 s3 a Ho3) as (r4 & h4 & Hrun4 & Htk4 & Hres4).
  rewrite bind_run, Hrun4. simpl.
  assert (take (length h) h4 = h) as Htk' by congruence.
  destruct (playCard a s3) as [e|s4].
  { subst r4. exists (inl e), h4. split; [done |].
    split; [by apply take_length_prefix | done]. }
  destruct Hres4 as [-> Ho4].
  exists (inr l1), h4. split; [done |].
  split; [by apply take_length_prefix | done].
Qed.

Lemma replayFrom_fresh acts n : forall i m h l s,
  owns m h l s ->
  exists r h', Heap.replayFrom acts i n l h = (r, h') /\ h `prefix_of` h' /\
    match r, replayFrom acts i n s with
    | inr l', inr s' => owns m h' l' s'
    | inl e, inl e' => e = e'
    | _, _ => False
    end.
Proof.
  induction n as [|n IH]; intros i m h l s Hs; simpl.
  - by exists (inr l), h.
  - destruct (acts !! i) as [a|]; [| by exists (inl TypeError), h].
    destruct (applyAction_fresh h l s a (owns_weaken _ _ _ _ Hs))
      as (r1 & h1 & Hrun1 & Hp1 & Hres1).
    rewrite bind_run, Hrun1.
    destruct r1 as [e|l1], (applyAction s a) as [e'|s1]; simpl in Hres1; try done.
    { subst e'. by exists (inl e), h1. }
    pose proof (owns_bound _ _ _ _ Hs) as Hm.
    destruct (IH (S i) m h1 l1 s1 (owns_mono _ m _ _ _ Hres1 Hm))
      as (r & h2 & Hrun2 & Hp2 & Hres2).
    exists r, h2. split; [done |]. split; [by etrans | done].
Qed.

Lemma computeStateAt_fresh h j json k :
  holdsJson h j json ->
  exists r h', Heap.computeStateAt j k h = (r, h') /\ h `prefix_of` h' /\
    match r, computeStateAt json k with
    | inr l, inr s => owns (length h) h' l s
    | inl e, inl e' => e = e'
    | _, _ => False
    end.
Proof.
  intros Hj. unfold Heap.computeStateAt, computeStateAt.
  destruct (buildInitialState_spec h j json Hj) as (l0 & h0 & Hrun0 & Ho0 & Htk0).
  destruct Hj as (_ & _ & _ & _ & -> & _).
  destruct (replayFrom_fresh (Json.actions json) k 0 _ h0 l0 _ Ho0)
    as (r & h' & Hrun & Hp & Hres).
  rewrite bind_run, Hrun0. exists r, h'. split; [done |].
  split; [| done]. etrans; [by apply take_length_prefix | done].
Qed.

(** A write to a snapshot object leaves the other snapshots as they are. *)
Lemma owns_store_other n h l o o' l2 s :
  h !! l = Some (Heap.Snapshot o) -> owns n h l2 s -> l2 <> l ->
  owns n (<[l := Heap.Snapshot o']> h) l2 s.
Proof.
  intros Hl (o2 & refs & H2 & Hh & Ht & Hw & Hhands & Hf & Hb) Hne.
  assert (forall l' c, h !! l' = Some c -> (forall o'', c <> Heap.Snapshot o'') ->
            <[l := Heap.Snapshot o']> h !! l' = Some c) as Hother.
  { intros l' c Hl' Hc. rewrite list_lookup_insert_ne; [done |].
    intros ->. rewrite Hl in Hl'. injection Hl' as <-. by destruct (Hc o). }
  exists o2, refs. split_and!; try done; try (by apply Hother).
  - by rewrite list_lookup_insert_ne.
  - eapply holdsHands_keeps; [done |]. apply keepsCards_insert.
    intros cs. by rewrite Hl.
  - apply Hb.
  - apply Hb.
  - apply Hb.
Qed.

Lemma overwrite_spec n h j json step l s :
  Heap.Json.actions j = Json.actions json -> owns n h l s ->
  exists o o', h !! l = Some (Heap.Snapshot o) /\
    HeapMain.overwrite j step l h = (inr tt, <[l := Heap.Snapshot o']> h) /\
    owns n (<[l := Heap.Snapshot o']> h) l
      (match (if (0 <? step)%nat then Json.actions json !! (step - 1)%nat else None)
               ≫= Action.player with
       | Some p => set_currentPlayer (Some p) s
       | None =>
           match (if (step <? length (Json.actions json))%nat
                  then Json.actions json !! step else None) ≫= Action.player with
           | Some p => set_currentPlayer (Some p) s
           | None => s
           end
       end).
Proof.
  intros Hacts Ho.
  assert (forall p, exists o o', h !! l = Some (Heap.Snapshot o) /\
            Heap.update l (Heap.set_currentPlayer p) h
              = (inr tt, <[l := Heap.Snapshot o']> h) /\
            owns n (<[l := Heap.Snapshot o']> h) l (set_currentPlayer p s)) as Hwrite.
  { intros p. pose proof Ho as (o & refs & Hl & _).
    destruct (update_owns n h l s (Heap.set_currentPlayer p) (set_currentPlayer p) Ho)
      as (h1 & Hrun1 & Ho1 & _); try done.
    { intros o1 (? & ? & ? & ? & ? & ? & ?). by repeat split. }
    exists o, (Heap.set_currentPlayer p o). split; [done |].
    rewrite (update_run h l o _ Hl) in Hrun1. injection Hrun1 as <-.
    split; [by apply update_run | done]. }
  unfold HeapMain.overwrite, HeapMain.lastAction, HeapMain.nextAction. rewrite Hacts.
  destruct (_ ≫= Action.player) as [p|]; [apply Hwrite |].
  destruct (_ ≫= Action.player) as [p|]; [apply Hwrite |].
  pose proof Ho as (o & refs & Hl & _).
  exists o, o. split; [done |].
  rewrite list_insert_id by done. by split.
Qed.

End HeapPage.

(** X21. [update] writes [currentPlayer] into the snapshot it got from
    [computeStateAt]. On the heap that write changes this snapshot only:
    the two references handed to [render] lead to the snapshot and the
    previous snapshot of the view computed on values, the round is still
    the round, and every object that was there before [update] is as it
    was. *)
Theorem update_writes_its_own_snapshot (h : Heap.heap) (j : Heap.Json.t) (json : Json.t)
    (g : Main.Globals) (step : nat) :
  holdsJson h j json ->
  exists r h',
    HeapMain.snapshots j step h = (r, h') /\ h `prefix_of` h' /\
    holdsJson h' j json /\
    sameSnapshots h' r (Main.update json g step).1.
Proof.
  intros Hj. pose proof Hj as (_ & _ & _ & _ & Hacts & _).
  unfold HeapMain.snapshots, Main.update.
  destruct (computeStateAt_fresh h j json step Hj) as (r1 & h1 & Hrun1 & Hp1 & Hres1).
  rewrite bind_run, Hrun1.
  destruct r1 as [e|l], (computeStateAt json step) as [e'|s0]; simpl in Hres1; try done.
  { subst e'. exists (inl e), h1. split_and!; try done. by eapply holdsJson_prefix. }
  pose proof (holdsJson_prefix _ _ _ _ Hj Hp1) as Hj1.
  assert (exists rp h2 (pv : Result (option State)),
            (if (0 <? step)%nat
             then l ← Heap.computeStateAt j (step - 1); Heap.ret (Some l)
             else Heap.ret None) h1 = (rp, h2) /\ h1 `prefix_of` h2 /\
            (if (0 <? step)%nat
             then bindR (computeStateAt json (step - 1)) (fun s => inr (Some s))
             else inr None) = pv /\
            match rp, pv with
            | inr (Some lp), inr (Some ps) => owns (length h1) h2 lp ps
            | inr None, inr None => True
            | inl e, inl e' => e = e'
            | _, _ => False
            end) as (rp & h2 & pv & Hrun2 & Hp2 & Hpv & Hres2).
  { destruct (0 <? step)%nat; [| by exists (inr None), h1, (inr None)].
    destruct (computeStateAt_fresh h1 j json (step - 1) Hj1)
      as (r2 & h2 & Hrun2 & Hp2 & Hres2).
    rewrite bind_run, Hrun2.
    destruct r2 as [e|lp], (computeStateAt json (step - 1)) as [e'|ps];
      simpl in Hres2; try done.
    - subst e'. by exists (inl e), h2, (inl e).
    - by exists (inr (Some lp)), h2, (inr (Some ps)). }
  rewrite bind_run, Hrun2, Hpv.
  pose proof (holdsJson_prefix _ _ _ _ Hj1 Hp2) as Hj2.
  destruct rp as [e|lp], pv as [e'|ps]; try done; try (by destruct lp).
  { subst e'. exists (inl e), h2. split_and!; try done. by etrans. }
  pose proof (owns_prefix _ _ _ _ _ Hres1 Hp2) as Ho2.
  destruct (overwrite_spec _ h2 j json step l s0 Hacts Ho2) as (o & o' & Hl & Hrun3 & Ho3).
  rewrite bind_run, Hrun3.
  exists (inr (l, lp)), (<[l := Heap.Snapshot o']> h2). split; [done |].
  split_and!.
  - apply take_length_prefix. rewrite take_insert_ge.
    + destruct Hp1 as [k1 ->], Hp2 as [k2 ->]. by rewrite <- app_assoc, take_app_length.
    + destruct Ho2 as (_ & _ & _ & _ & _ & _ & _ & _ & Hb & _). exact Hb.
  - by eapply caller_write_keeps_round.
  - destruct (_ && _ && negb _); simpl; (split; [by eapply owns_weaken |]);
      destruct lp as [lp|], ps as [ps|]; try done;
      eapply owns_weaken, owns_store_other; try done;
      pose proof (owns_bound _ _ _ _ Hres1); apply lookup_lt_Some in Hl;
      destruct Hres2 as (_ & _ & _ & _ & _ & _ & _ & _ & Hb & _);
      destruct Hres1 as (o1 & _ & Hl1 & _); apply lookup_lt_Some in Hl1; lia.
Qed.

Lemma sample_holdsJson_start : holdsJson Sample.heap0 Sample.round_ref Sample.round.
Proof.
  unfold holdsJson. split_and!; try reflexivity.
  exists (<[0 := 0%nat]> (<[1 := 1%nat]> (<[2 := 2%nat]> (<[3 := 3%nat]> ∅)))).
  unfold holdsHands. split; vm_compute; reflexivity.
Defined.

Lemma update_writes_its_own_snapshot_witness :
  exists r h',
    HeapMain.snapshots Sample.round_ref 7 Sample.heap0 = (r, h') /\
    Sample.heap0 `prefix_of` h' /\
    holdsJson h' Sample.round_ref Sample.round /\
    sameSnapshots h' r (Main.update Sample.round Main.initial 7).1.
Proof.
  exact (update_writes_its_own_snapshot Sample.heap0 Sample.round_ref Sample.round
           Main.initial 7 sample_holdsJson_start).
Defined.
